(** * Break segmentation and facility assignment

    A shallow embedding of the computational kernels of the
    repository:

    - [pausenkoordinaten.py], function [main], sections 6a and 6b: every
      trip's edge path is walked and a break is recorded whenever the
      distance driven since the last break exceeds the threshold plus a
      random jitter;
    - [pausenzuordnung.py], function [assign_breaks_to_points]: every break
      is credited to one facility, chosen by containment in the facility's
      buffer, by the smallest running total, or by the smallest distance;
    - [ladebedarf.py], functions [update_mauttabelle_with_befahrung],
      [find_closest_row] and [assign_closest_rows]: the toll table takes
      the weekday values of the traffic counts, and every facility is set
      beside the nearest section of its road.

    Conventions of the embedding.

    - Python floats (distances, truck counts, coordinates) are rationals
      [Q] where the theorems are about which break is recorded, which
      facility is chosen and which entry is increased: comparing,
      copying and numbering are the same on binary64 numbers and on the
      rationals they stand for.  Where the sums themselves matter, the
      assignment is modelled once more with binary64 counts and with
      distances that can be NaN ([Pausenzuordnung64]).
    - Python dictionaries are [gmap]s; [d[k]] on a missing key raises
      [KeyError k].
    - Python exceptions are the [Raise] branch of [Result]; nothing in the
      two functions catches an exception, so a raised error ends the run.
    - [np.random.randint] reads and advances numpy's process-wide
      generator.  The generator is an explicit state [G] with a transition
      function [randint], threaded through the loops in program order.
    - The geometry of shapely ([contains], [distance], [buffer]) is a
      parameter of the assignment, and so is [np.sqrt].
    - A pandas table is the list of its rows, in the order of its default
      index. *)

From Stdlib Require Import ZArith QArith Qabs Qminmax Lia Lqa Ascii.
From Stdlib Require SpecFloat.
From stdpp Require Import base option list gmap.

(** ** Exceptions *)

Inductive PyError : Type :=
  | KeyError (key : Z)
  | IndexError
  | ValueError
  | TypeError.

Inductive Result (A : Type) : Type :=
  | Ok (a : A)
  | Raise (e : PyError).
Arguments Ok {A} a.
Arguments Raise {A} e.

#[global] Instance Result_ret : MRet Result := fun _ a => Ok a.
#[global] Instance Result_bind : MBind Result := fun _ _ f r =>
  match r with
  | Ok a => f a
  | Raise e => Raise e
  end.

(** A [for] loop whose body may raise: the first exception leaves the loop. *)
Fixpoint for_each {A S : Type} (body : S -> A -> Result S) (s : S) (l : list A)
  : Result S :=
  match l with
  | [] => Ok s
  | x :: l' => s' ← body s x; for_each body s' l'
  end.

(** Two runs end alike: with the same exception, or with results related
    by [R]. *)
Inductive result_rel {A B : Type} (R : A -> B -> Prop)
  : Result A -> Result B -> Prop :=
  | result_rel_Ok (a : A) (b : B) : R a b -> result_rel R (Ok a) (Ok b)
  | result_rel_Raise (e : PyError) : result_rel R (Raise e) (Raise e).

(** [d[k]] for a dictionary [d]. *)
Definition getitem {V : Type} (d : gmap Z V) (k : Z) : Result V :=
  match d !! k with
  | Some v => Ok v
  | None => Raise (KeyError k)
  end.

(** [enumerate(l)]. *)
Definition enumerate {A : Type} (l : list A) : list (nat * A) :=
  zip (seq 0 (length l)) l.

(** [a > b] on floats. *)
Definition Qgtb (a b : Q) : bool := negb (Qle_bool a b).

(** ** Strings

    A Python [str] is the list of its characters. *)

(** [s.lstrip(chars)], [s.rstrip(chars)] and [s.strip(chars)]: leading and
    trailing characters that occur in [chars] are removed. *)
Fixpoint str_lstrip (chars : list ascii) (s : list ascii) : list ascii :=
  match s with
  | [] => []
  | c :: s' => if existsb (Ascii.eqb c) chars then str_lstrip chars s' else s
  end.

Definition str_rstrip (chars : list ascii) (s : list ascii) : list ascii :=
  reverse (str_lstrip chars (reverse s)).

Definition str_strip (chars : list ascii) (s : list ascii) : list ascii :=
  str_rstrip chars (str_lstrip chars s).

(** [s.split(sep)] for a separator of one character: the fields between
    the separators, at least one. *)
Fixpoint str_split (sep : ascii) (s : list ascii) : list (list ascii) :=
  match s with
  | [] => [[]]
  | c :: s' =>
      if Ascii.eqb c sep then [] :: str_split sep s'
      else match str_split sep s' with
           | [] => [[c]]
           | field :: fields => (c :: field) :: fields
           end
  end.

(** [sep.join(fields)] for a separator of one character. *)
Fixpoint str_join (sep : ascii) (fields : list (list ascii)) : list ascii :=
  match fields with
  | [] => []
  | [field] => field
  | field :: fields' => field ++ sep :: str_join sep fields'
  end.

(** ** Break segmentation ([pausenkoordinaten.py]) *)

Module Pausenkoordinaten.

Definition DISTANCE_THRESHOLD : Q := 360.
Definition MAX_DISTANCE_SINGLEDRIVER : Q := 4320.

Inductive BreakType : Type := short | long.

#[global] Instance BreakType_eq_dec : EqDecision BreakType.
Proof. solve_decision. Defined.

(** One row of [dict_break]. *)
Record Break : Type := mkBreak {
  Trip_ID : nat;
  Driver : Z;
  Break_Nr : Z;
  Break_Type : BreakType;
  Edge : Z;
  Edge_length : Q;
  Node_B : Z;
  Latitude_B : Q;
  Longitude_B : Q;
  Break_Number : Q
}.

(** The four dictionaries built in section 4 of [main]. *)
Record Network : Type := mkNetwork {
  dict_edge_length : gmap Z Q;
  dict_edge_node_b : gmap Z Z;
  dict_node_lat : gmap Z Q;
  dict_node_lon : gmap Z Q
}.

(** One row of the filtered traffic flow: the entries at one index of
    [list_trip_edges], [list_distance_origin_road] and [list_trip_traffic]. *)
Record Trip : Type := mkTrip {
  edges_list : list Z;
  distance_origin_road : Q;
  trip_traffic : Q
}.

Section Segmentation.

Context {G : Type}.
(** [randint lo hi g]: the drawn integer and the generator afterwards. *)
Variable randint : Z -> Z -> G -> Z * G.
Variable net : Network.
Variable trip_distance : Q.

(** The loop-carried variables of the inner loop of 6a:
    [travel_distance], [breaks], the generator, [dict_break]. *)
Definition SingleState : Type := Q * Z * G * list Break.

(** Body of [for edge_id in edges_list] in 6a (lines 135-164). *)
Definition single_edge (index : nat) (traffic : Q)
    (st : SingleState) (edge_id : Z) : Result SingleState :=
  let '(travel_distance, breaks, g, dict_break) := st in
  len ← getitem (dict_edge_length net) edge_id;
  let travel_distance := (travel_distance + len)%Q in
  let '(jitter, g) := randint (-50) 50 g in
  if Qgtb travel_distance (trip_distance + inject_Z jitter)%Q then
    let travel_distance := 0%Q in
    let breaks := (breaks + 1)%Z in
    break_edge_length ← getitem (dict_edge_length net) edge_id;
    break_node_id ← getitem (dict_edge_node_b net) edge_id;
    break_node_lat ← getitem (dict_node_lat net) break_node_id;
    break_node_lon ← getitem (dict_node_lon net) break_node_id;
    let break_type :=
      if (breaks mod 2 =? 1)%Z then short else long in
    Ok (travel_distance, breaks, g,
        dict_break ++ [mkBreak index 1 breaks break_type edge_id
                         break_edge_length break_node_id break_node_lat
                         break_node_lon traffic])
  else Ok (travel_distance, breaks, g, dict_break).

(** Body of the outer loop of 6a (lines 129-164). *)
Definition single_trip (st : G * list Break) (it : nat * Trip)
  : Result (G * list Break) :=
  let '(g, dict_break) := st in
  let '(index, trip) := it in
  '(_, _, g, dict_break) ←
    for_each (single_edge index (trip_traffic trip))
      (distance_origin_road trip, 0%Z, g, dict_break) (edges_list trip);
  Ok (g, dict_break).

(** The loop-carried variables of the inner loop of 6b:
    [travel_distance], [breaks], [breaks_reset], the generator,
    [dict_break]. *)
Definition TwoState : Type := Q * Z * Z * G * list Break.

(** Body of [for edge_id in edges_list] in 6b (lines 178-210). *)
Definition two_edge (index : nat) (traffic : Q)
    (st : TwoState) (edge_id : Z) : Result TwoState :=
  let '(travel_distance, breaks, breaks_reset, g, dict_break) := st in
  len ← getitem (dict_edge_length net) edge_id;
  let travel_distance := (travel_distance + len)%Q in
  let '(jitter, g) := randint (-50) 50 g in
  if Qgtb travel_distance (trip_distance + inject_Z jitter)%Q then
    let travel_distance := 0%Q in
    let breaks := (breaks + 1)%Z in
    break_edge_length ← getitem (dict_edge_length net) edge_id;
    break_node_id ← getitem (dict_edge_node_b net) edge_id;
    break_node_lat ← getitem (dict_node_lat net) break_node_id;
    break_node_lon ← getitem (dict_node_lon net) break_node_id;
    let '(break_type, breaks_reset) :=
      if (breaks_reset <=? 2)%Z then (short, (breaks_reset + 1)%Z)
      else (long, 0%Z) in
    Ok (travel_distance, breaks, breaks_reset, g,
        dict_break ++ [mkBreak index 2 breaks break_type edge_id
                         break_edge_length break_node_id break_node_lat
                         break_node_lon traffic])
  else Ok (travel_distance, breaks, breaks_reset, g, dict_break).

(** Body of the outer loop of 6b (lines 171-210). *)
Definition two_trip (st : G * list Break) (it : nat * Trip)
  : Result (G * list Break) :=
  let '(g, dict_break) := st in
  let '(index, trip) := it in
  '(_, _, _, g, dict_break) ←
    for_each (two_edge index (trip_traffic trip))
      (distance_origin_road trip, 0%Z, 0%Z, g, dict_break) (edges_list trip);
  Ok (g, dict_break).

(** Sections 6a and 6b of [main]: the content of [dict_break] at line 211,
    in the order the rows were appended.  [single] holds the rows of
    [df_traffic_flow_filtered], [two] those of
    [df_traffic_flow_filtered_two_driver] (see [single_driver_row] and
    [two_driver_row] below).  An exception leaves [main], so nothing is
    exported; sections 7 to 9 sort and export the rows and are not part
    of the model. *)
Definition main_breaks (single two : list Trip) (g : G)
  : Result (list Break) :=
  st ← for_each single_trip (g, []) (enumerate single);
  '(_, dict_break) ← for_each two_trip st (enumerate two);
  Ok dict_break.

(** The first [n] integers the generator yields from state [g]. *)
Fixpoint draws (n : nat) (g : G) : list Z :=
  match n with
  | O => []
  | S n' => let '(jitter, g') := randint (-50) 50 g in jitter :: draws n' g'
  end.

End Segmentation.

Section SameDraws.

Context {G1 G2 : Type}.
Variable randint1 : Z -> Z -> G1 -> Z * G1.
Variable randint2 : Z -> Z -> G2 -> Z * G2.

(** The next [n] draws of two generators agree. *)
Definition same_draws (n : nat) (g1 : G1) (g2 : G2) : Prop :=
  draws randint1 n g1 = draws randint2 n g2.

(** Two runs are at the same point of the loops, with generators that
    agree on the next [n] draws. *)
Definition single_rel (n : nat)
    (s1 : SingleState (G := G1)) (s2 : SingleState (G := G2)) : Prop :=
  let '(t1, b1, g1, out1) := s1 in
  let '(t2, b2, g2, out2) := s2 in
  t1 = t2 /\ b1 = b2 /\ out1 = out2 /\ same_draws n g1 g2.

Definition two_rel (n : nat)
    (s1 : TwoState (G := G1)) (s2 : TwoState (G := G2)) : Prop :=
  let '(t1, b1, r1, g1, out1) := s1 in
  let '(t2, b2, r2, g2, out2) := s2 in
  t1 = t2 /\ b1 = b2 /\ r1 = r2 /\ out1 = out2 /\ same_draws n g1 g2.

Definition trip_rel (n : nat)
    (s1 : G1 * list Break) (s2 : G2 * list Break) : Prop :=
  s1.2 = s2.2 /\ same_draws n s1.1 s2.1.

End SameDraws.

(** One row of [df_traffic_flow], with [Edge_path_E_road] already parsed by
    [parse_edge_string]. *)
Record FlowRow : Type := mkFlowRow {
  Edge_path_E_road : list Z;
  Distance_from_origin_region_to_E_road : Q;
  Distance_within_E_road : Q;
  Traffic_flow_trucks_2030 : Q
}.

(** The two filters of section 2 of [main]. *)
Definition single_driver_row (r : FlowRow) : bool :=
  let total :=
    (Distance_from_origin_region_to_E_road r + Distance_within_E_road r)%Q in
  Qgtb total 0 && Qle_bool total MAX_DISTANCE_SINGLEDRIVER
  && Qgtb (Traffic_flow_trucks_2030 r) 0.

Definition two_driver_row (r : FlowRow) : bool :=
  let total :=
    (Distance_from_origin_region_to_E_road r + Distance_within_E_road r)%Q in
  Qgtb total MAX_DISTANCE_SINGLEDRIVER && Qgtb (Traffic_flow_trucks_2030 r) 0.

(** Sections 3 and 5 of [main]: the columns the loops read. *)
Definition trip_of_row (r : FlowRow) : Trip :=
  mkTrip (Edge_path_E_road r) (Distance_from_origin_region_to_E_road r)
    (Traffic_flow_trucks_2030 r).

(** [main] on the two filtered lists, with the configured threshold. *)
Definition main {G : Type} (randint : Z -> Z -> G -> Z * G) (net : Network)
    (single two : list Trip) (g : G) : Result (list Break) :=
  main_breaks randint net DISTANCE_THRESHOLD single two g.

(** The breaks of trip [index] with [driver] drivers, in output order. *)
Definition breaks_of (driver : Z) (index : nat) (dict_break : list Break)
  : list Break :=
  filter (fun b => Driver b = driver /\ Trip_ID b = index) dict_break.

(** The break types the two rules assign to break number [nr] (from 1). *)
Definition single_driver_type (nr : Z) : BreakType :=
  if Z.odd nr then short else long.

Definition two_driver_type (nr : Z) : BreakType :=
  if (nr mod 4 =? 0)%Z then long else short.

(** The number of edges walked over a list of trips: one jitter draw each. *)
Definition total_edges (trips : list Trip) : nat :=
  sum_list (length <$> (edges_list <$> trips)).

(** [evs] are breaks of trip [index] with [driver] drivers, numbered
    consecutively from [b + 1] and typed by [type_of]. *)
Definition numbered (driver : Z) (index : nat) (type_of : Z -> BreakType)
    (b : Z) (evs : list Break) : Prop :=
  forall (k : nat) (ev : Break), evs !! k = Some ev ->
    Trip_ID ev = index /\ Driver ev = driver /\
    Break_Nr ev = (b + Z.of_nat k + 1)%Z /\
    Break_Type ev = type_of (b + Z.of_nat k + 1)%Z.

(** An edge whose length, end node and node coordinates are all on file. *)
Definition known_edge (net : Network) (edge_id : Z) : Prop :=
  exists len node lat lon,
    dict_edge_length net !! edge_id = Some len /\
    dict_edge_node_b net !! edge_id = Some node /\
    dict_node_lat net !! node = Some lat /\
    dict_node_lon net !! node = Some lon.

Definition known_trip (net : Network) (trip : Trip) : Prop :=
  Forall (known_edge net) (edges_list trip).

(** A [KeyError] whose key one of the four dictionaries does not hold. *)
Definition missing_key (net : Network) (err : PyError) : Prop :=
  exists key, err = KeyError key /\
    (dict_edge_length net !! key = None \/ dict_edge_node_b net !! key = None \/
     dict_node_lat net !! key = None \/ dict_node_lon net !! key = None).

(** A trip with an edge id that [dict_edge_length] does not hold. *)
Definition has_unknown_edge (net : Network) (trip : Trip) : Prop :=
  exists e, e ∈ edges_list trip /\ dict_edge_length net !! e = None.

(** [parse_edge_string]: the edge ids of a string such as ["[12,13,14]"],
    or the empty list when reading a field raises.  [int] is Python's
    conversion of a string to an integer. *)
Definition parse_edge_string (int : list ascii -> Result Z)
    (edge_str : list ascii) : list Z :=
  match mapM int (str_split "," (str_strip ["["; "]"]%char edge_str)) with
  | Ok edges_parsed => edges_parsed
  | Raise _ => []
  end.

(** [main] from the unfiltered traffic flow. *)
Definition main_traffic_flow {G : Type} (randint : Z -> Z -> G -> Z * G)
    (net : Network) (df_traffic_flow : list FlowRow) (g : G)
  : Result (list Break) :=
  main randint net
    (trip_of_row <$> List.filter single_driver_row df_traffic_flow)
    (trip_of_row <$> List.filter two_driver_row df_traffic_flow) g.

End Pausenkoordinaten.

(** ** Facility assignment ([pausenzuordnung.py]) *)

Module Pausenzuordnung.

Definition BUFFER_RADIUS : Q := 40000.

(** [a < b] on floats. *)
Definition Qltb (a b : Q) : bool := negb (Qle_bool b a).

(** A float that is either finite or [float('inf')]. *)
Inductive Float : Type :=
  | Fin (q : Q)
  | Inf.

(** [a < m] for a finite [a]. *)
Definition lt_float (a : Q) (m : Float) : bool :=
  match m with
  | Fin q => Qltb a q
  | Inf => true
  end.

(** [np.where(mask)[0]]: the positions of the [True] entries, ascending. *)
Fixpoint where_from (i : nat) (mask : list bool) : list nat :=
  match mask with
  | [] => []
  | b :: mask' =>
      if b then i :: where_from (S i) mask' else where_from (S i) mask'
  end.

Definition np_where (mask : list bool) : list nat := where_from 0 mask.

(** [Series.idxmin()] over a default index: the first position of the
    smallest entry; an empty series raises [ValueError]. *)
Fixpoint idxmin_from (i best : nat) (best_value : Q) (l : list Q) : nat :=
  match l with
  | [] => best
  | d :: l' =>
      if Qltb d best_value then idxmin_from (S i) i d l'
      else idxmin_from (S i) best best_value l'
  end.

Definition idxmin (l : list Q) : Result nat :=
  match l with
  | [] => Raise ValueError
  | d :: l' => Ok (idxmin_from 1 0 d l')
  end.

(** [l[i]] for a list [l]. *)
Definition list_getitem (l : list Q) (i : nat) : Result Q :=
  match l !! i with
  | Some v => Ok v
  | None => Raise IndexError
  end.

(** [l[i] += c] for a list [l]; the updated list. *)
Definition list_iadd (l : list Q) (i : nat) (c : Q) : Result (list Q) :=
  v ← list_getitem l i; Ok (<[i := (v + c)%Q]> l).

(** [l[i] += c] where [i] may be [None]. *)
Definition list_iadd_opt (l : list Q) (i : option nat) (c : Q)
  : Result (list Q) :=
  match i with
  | Some i => list_iadd l i c
  | None => Raise TypeError
  end.

Section Assignment.

(** Shapely geometries: the buffered facility ([Geom]) and the break
    location ([Point]), with the two predicates the function calls. *)
Context {Geom Point : Type}.
Variable contains : Geom -> Point -> bool.
Variable distance : Geom -> Point -> Q.

(** One row of [gdf_breaks_in_germany]. *)
Record BreakRow : Type := mkBreakRow {
  geometry : Point;
  Break_Number : Q
}.

(** Body of the loop over [contained_indices] (lines 161-168). *)
Definition select_kreis (results_breaks : list Q)
    (st : Float * option nat) (kreis_idx : nat)
  : Result (Float * option nat) :=
  let '(min_ratio_value, selected_kreis) := st in
  current_ratio ← list_getitem results_breaks kreis_idx;
  if lt_float current_ratio min_ratio_value
  then Ok (Fin current_ratio, Some kreis_idx)
  else Ok (min_ratio_value, selected_kreis).

(** [np.where(polygons_kreis.contains(point_geom))[0]] (lines 142-143). *)
Definition contained_indices (polygons_kreis : list Geom)
    (point_geom : Point) : list nat :=
  let contained := (fun k => contains k point_geom) <$> polygons_kreis in
  np_where contained.

(** Body of the loop over the breaks (lines 135-170); the [print] of
    large counts has no effect on the result. *)
Definition assign_break (polygons_kreis : list Geom)
    (results_breaks : list Q) (row : BreakRow) : Result (list Q) :=
  let point_geom := geometry row in
  let break_count := Break_Number row in
  let indices := contained_indices polygons_kreis point_geom in
  match indices with
  | [] =>
      let distances := (fun k => distance k point_geom) <$> polygons_kreis in
      nearest_geom_idx ← idxmin distances;
      list_iadd results_breaks nearest_geom_idx break_count
  | [kreis_idx] =>
      list_iadd results_breaks kreis_idx break_count
  | _ =>
      '(_, selected_kreis) ←
        for_each (select_kreis results_breaks) (Inf, None) indices;
      list_iadd_opt results_breaks selected_kreis break_count
  end.

(** [assign_breaks_to_points]: the values of the returned series.
    [gdf_ausschreibung] contributes its number of rows. *)
Definition assign_breaks_to_points {Standort : Type}
    (gdf_breaks_in_germany : list BreakRow)
    (gdf_ausschreibung : list Standort)
    (gdf_ausschreibung_kreis : list Geom) : Result (list Q) :=
  let results_breaks := replicate (length gdf_ausschreibung) 0%Q in
  for_each (assign_break gdf_ausschreibung_kreis) results_breaks
    gdf_breaks_in_germany.

End Assignment.

Arguments mkBreakRow {Point} geometry Break_Number.
Arguments geometry {Point} b.
Arguments Break_Number {Point} b.

Section Main.

Context {Geom Point : Type}.
Variable contains : Geom -> Point -> bool.
Variable distance : Geom -> Point -> Q.

(** Position [j] holds a facility whose buffer contains the break of
    [row] or, when no buffer contains it, a facility at the smallest
    distance from it. *)
Definition eligible (kreis : list Geom) (j : nat)
    (row : BreakRow (Point := Point)) : Prop :=
  exists g, kreis !! j = Some g /\
    (contains g (geometry row) = true \/
     (contained_indices contains kreis (geometry row) = [] /\
      forall k h, kreis !! k = Some h ->
        (distance g (geometry row) <= distance h (geometry row))%Q)).

End Main.

End Pausenzuordnung.

(** ** Binary64 numbers

    Python's [float] and numpy's [float64], after the specification of
    IEEE 754 arithmetic of the Standard Library. *)

Module Binary64.

Definition float : Type := SpecFloat.spec_float.

Definition add : float -> float -> float := SpecFloat.SFadd 53 1024.
Definition div : float -> float -> float := SpecFloat.SFdiv 53 1024.
Definition ltb : float -> float -> bool := SpecFloat.SFltb.
Definition eqb : float -> float -> bool := SpecFloat.SFeqb.

Definition zero : float := SpecFloat.S754_zero false.
Definition inf : float := SpecFloat.S754_infinity false.

(** [float(z)] for an integer below 2^53. *)
Definition of_Z (z : Z) : float := SpecFloat.binary_normalize 53 1024 z 0 false.

(** The float Python reads from the decimal literal [m / 10^k]: the
    binary64 number nearest to it. *)
Definition decimal (m : Z) (k : nat) : float :=
  div (of_Z m) (of_Z (10 ^ Z.of_nat k)).

(** The number a finite float stands for. *)
Definition value (x : float) : Q :=
  match x with
  | SpecFloat.S754_finite s m e =>
      ((if s then -1 else 1) * inject_Z (Z.pos m) * 2 ^ e)%Q
  | _ => 0%Q
  end.

(** The floats of a list added one after the other, from 0. *)
Definition sum (l : list float) : float := fold_left add l zero.

End Binary64.

(** ** Facility assignment with binary64 counts

    [assign_breaks_to_points] once more, with the arithmetic and the
    geometry as the program has them: the running totals and the counts
    are binary64 numbers, added with rounding, and a distance is a number
    or NaN (the distance to an empty geometry).  Distances are only
    compared, so that a distance that is a number is the rational it
    stands for. *)

Module Pausenzuordnung64.

(** [Series.idxmin()] over a default index: the first position of the
    smallest entry that is not NaN ([None]); a series that is empty or
    holds nothing but NaN raises [ValueError]. *)
Fixpoint idxmin_from (i : nat) (best : option (nat * Q))
    (l : list (option Q)) : option nat :=
  match l with
  | [] => fst <$> best
  | None :: l' => idxmin_from (S i) best l'
  | Some d :: l' =>
      match best with
      | Some (_, best_value) =>
          if Pausenzuordnung.Qltb d best_value
          then idxmin_from (S i) (Some (i, d)) l'
          else idxmin_from (S i) best l'
      | None => idxmin_from (S i) (Some (i, d)) l'
      end
  end.

Definition idxmin (l : list (option Q)) : Result nat :=
  match idxmin_from 0 None l with
  | Some j => Ok j
  | None => Raise ValueError
  end.

(** [l[i]] for a list [l]. *)
Definition list_getitem (l : list Binary64.float) (i : nat)
  : Result Binary64.float :=
  match l !! i with
  | Some v => Ok v
  | None => Raise IndexError
  end.

(** [l[i] += c] for a list [l]; the updated list. *)
Definition list_iadd (l : list Binary64.float) (i : nat)
    (c : Binary64.float) : Result (list Binary64.float) :=
  v ← list_getitem l i; Ok (<[i := Binary64.add v c]> l).

(** [l[i] += c] where [i] may be [None]. *)
Definition list_iadd_opt (l : list Binary64.float) (i : option nat)
    (c : Binary64.float) : Result (list Binary64.float) :=
  match i with
  | Some i => list_iadd l i c
  | None => Raise TypeError
  end.

Section Assignment.

Context {Geom Point : Type}.
Variable contains : Geom -> Point -> bool.
(** [distance k p]: a number, or NaN ([None]). *)
Variable distance : Geom -> Point -> option Q.

(** One row of [gdf_breaks_in_germany]. *)
Record BreakRow : Type := mkBreakRow {
  geometry : Point;
  Break_Number : Binary64.float
}.

(** Body of the loop over [contained_indices] (lines 161-168). *)
Definition select_kreis (results_breaks : list Binary64.float)
    (st : Binary64.float * option nat) (kreis_idx : nat)
  : Result (Binary64.float * option nat) :=
  let '(min_ratio_value, selected_kreis) := st in
  current_ratio ← list_getitem results_breaks kreis_idx;
  if Binary64.ltb current_ratio min_ratio_value
  then Ok (current_ratio, Some kreis_idx)
  else Ok (min_ratio_value, selected_kreis).

(** Body of the loop over the breaks (lines 135-170). *)
Definition assign_break (polygons_kreis : list Geom)
    (results_breaks : list Binary64.float) (row : BreakRow)
  : Result (list Binary64.float) :=
  let point_geom := geometry row in
  let break_count := Break_Number row in
  let indices :=
    Pausenzuordnung.contained_indices contains polygons_kreis point_geom in
  match indices with
  | [] =>
      let distances := (fun k => distance k point_geom) <$> polygons_kreis in
      nearest_geom_idx ← idxmin distances;
      list_iadd results_breaks nearest_geom_idx break_count
  | [kreis_idx] =>
      list_iadd results_breaks kreis_idx break_count
  | _ =>
      '(_, selected_kreis) ←
        for_each (select_kreis results_breaks) (Binary64.inf, None) indices;
      list_iadd_opt results_breaks selected_kreis break_count
  end.

(** [assign_breaks_to_points]: the values of the returned series. *)
Definition assign_breaks_to_points {Standort : Type}
    (gdf_breaks_in_germany : list BreakRow)
    (gdf_ausschreibung : list Standort)
    (gdf_ausschreibung_kreis : list Geom) : Result (list Binary64.float) :=
  let results_breaks := replicate (length gdf_ausschreibung) Binary64.zero in
  for_each (assign_break gdf_ausschreibung_kreis) results_breaks
    gdf_breaks_in_germany.

(** Position [j] holds a facility whose buffer contains the break of
    [row] or, when no buffer contains it, a facility at the smallest
    distance from it. *)
Definition eligible (kreis : list Geom) (j : nat) (row : BreakRow) : Prop :=
  exists g, kreis !! j = Some g /\
    (contains g (geometry row) = true \/
     (Pausenzuordnung.contained_indices contains kreis (geometry row) = [] /\
      exists d, distance g (geometry row) = Some d /\
        forall k h d', kreis !! k = Some h ->
          distance h (geometry row) = Some d' -> (d <= d')%Q)).

End Assignment.

Arguments mkBreakRow {Point} geometry Break_Number.
Arguments geometry {Point} b.
Arguments Break_Number {Point} b.

(** The counts of the breaks that [assignment] gives to position [j], in
    the order of the breaks. *)
Definition counts_of (assignment : list nat) (counts : list Binary64.float)
    (j : nat) : list Binary64.float :=
  snd <$> filter (fun p => p.1 = j) (zip assignment counts).

End Pausenzuordnung64.

(** ** A one-dimensional geometry

    Facilities on a line: a buffer is an open interval around a centre,
    [contains] is membership in the interval's interior, [distance] is the
    gap between the point and the interval (zero inside). *)

Module Line.

Record Interval : Type := mkInterval { centre : Q; radius : Q }.

Definition contains (k : Interval) (p : Q) : bool :=
  Pausenzuordnung.Qltb (Qabs (p - centre k)) (radius k).

Definition distance (k : Interval) (p : Q) : Q :=
  Qmax 0 (Qabs (p - centre k) - radius k).

End Line.

(** Buffers on a line as shapely has them: [Point.buffer(r)] is the open
    interval of radius [r] around the point, and the empty geometry when
    [r] is not positive.  The empty geometry contains nothing, and the
    distance to it is NaN. *)
Module Disc.

Inductive Region : Type :=
  | Empty
  | Around (centre radius : Q).

Definition buffer (r : Q) (c : Q) : Region :=
  if Qle_bool r 0 then Empty else Around c r.

Definition contains (k : Region) (p : Q) : bool :=
  match k with
  | Empty => false
  | Around c r => Pausenzuordnung.Qltb (Qabs (p - c)) r
  end.

Definition distance (k : Region) (p : Q) : option Q :=
  match k with
  | Empty => None
  | Around c r => Some (Qmax 0 (Qabs (p - c) - r))
  end.

End Disc.

(** ** Sums of counts *)

Definition sumQ (l : list Q) : Q := foldr Qplus 0%Q l.

(** ** Counts credited to a facility

    [assignment] names, break by break, the position of the facility a
    break went to; [credited] adds up the counts that went to position
    [j]. *)


(** ** Break rows and the trips they come from *)

Module Segments.

Import Pausenkoordinaten.

(** The length, end node and coordinates of a break row are those the
    dictionaries hold for its edge. *)
Definition row_matches_network (net : Network) (ev : Break) : Prop :=
  dict_edge_length net !! Edge ev = Some (Edge_length ev) /\
  dict_edge_node_b net !! Edge ev = Some (Node_B ev) /\
  dict_node_lat net !! Node_B ev = Some (Latitude_B ev) /\
  dict_node_lon net !! Node_B ev = Some (Longitude_B ev).

(** The edge of a break row lies on the path of [trip], and the row
    carries the truck count of [trip]. *)
Definition row_matches_trip (trip : Trip) (ev : Break) : Prop :=
  Edge ev ∈ edges_list trip /\ Break_Number ev = trip_traffic trip.

(** Section 8 of [main]: the number of rows of one break type, as in
    [len(df_breaks[df_breaks['Break_Type'] == 'short'])]. *)
Definition breaks_count (ty : BreakType) (df_breaks : list Break) : nat :=
  length (filter (fun ev => Break_Type ev = ty) df_breaks).

(** The rows one inner loop appends while walking [es]: at most one per
    edge, each for an edge of [es]. *)
Definition loop_rows (net : Network) (driver : Z) (index : nat) (traffic : Q)
    (es : list Z) (evs : list Break) : Prop :=
  length evs <= length es /\
  Forall (fun ev => Trip_ID ev = index /\ Driver ev = driver /\
            Edge ev ∈ es /\ Break_Number ev = traffic /\
            row_matches_network net ev) evs.

(** What one trip appends to [dict_break]. *)
Definition trip_block (net : Network) (trip : Trip) (evs : list Break)
  : Prop :=
  Forall (fun ev => row_matches_network net ev /\ row_matches_trip trip ev)
    evs /\
  length evs <= length (edges_list trip).

End Segments.

(** ** Charging demand per weekday ([ladebedarf.py]) *)

Module Ladebedarf.

Definition R_BEV_2035 : Q := 0.74.
Definition R_TRAFFIC_2035 : Q := 1.041.
Definition R_SECTION : Q := 0.6.

(** The seven columns [Montag] to [Sonntag]. *)
Record Wochentage : Type := mkWochentage {
  Montag : Q;
  Dienstag : Q;
  Mittwoch : Q;
  Donnerstag : Q;
  Freitag : Q;
  Samstag : Q;
  Sonntag : Q
}.

(** One row of [df_mauttabelle]: a section of a federal road, the two
    ends of the section and the traffic per weekday. *)
Record MautRow : Type := mkMautRow {
  Abschnitts_ID : Z;
  Bundesfernstrasse : list ascii;
  Laenge_Von : Q;
  Laenge_Nach : Q;
  Breite_Von : Q;
  Breite_Nach : Q;
  maut_tage : Wochentage
}.

(** One row of [df_befahrung]. *)
Record BefahrungRow : Type := mkBefahrungRow {
  Strecken_ID : Z;
  befahrung_tage : Wochentage
}.

(** One row of [df_ausschreibung], with the columns the functions read. *)
Record Standort : Type := mkStandort {
  Laengengrad : Q;
  Breitengrad : Q;
  Bundesautobahn : list ascii;
  short_breaks_2030 : Q;
  long_breaks_2030 : Q
}.

(** [s == t] on strings. *)
Definition str_eqb (s t : list ascii) : bool :=
  if Stdlib.Lists.List.list_eq_dec ascii_dec s t then true else false.

(** [Series.str.contains('B')] for one entry. *)
Definition contains_B (s : list ascii) : bool := existsb (Ascii.eqb "B") s.

(** [df_mauttabelle.loc[mask, day] = row[day]] for the seven days, on one
    row of the table. *)
Definition set_tage (m : MautRow) (tage : Wochentage) : MautRow :=
  mkMautRow (Abschnitts_ID m) (Bundesfernstrasse m) (Laenge_Von m)
    (Laenge_Nach m) (Breite_Von m) (Breite_Nach m) tage.

(** One pass of the loop of [update_mauttabelle_with_befahrung] (lines
    88-98) on one row [m] of the table: a row under the mask takes the
    seven values of [row]. *)
Definition update_one (row : BefahrungRow) (m : MautRow) : MautRow :=
  if (Abschnitts_ID m =? Strecken_ID row)%Z
  then set_tage m (befahrung_tage row) else m.

(** One pass of the loop on the whole table; with an empty mask nothing
    changes, as after [continue]. *)
Definition update_with_row (df_mauttabelle : list MautRow)
    (row : BefahrungRow) : list MautRow :=
  update_one row <$> df_mauttabelle.

(** What a row of the table becomes when the rows of [df_befahrung] for
    its section end with [last_row]. *)
Definition with_last (last_row : option BefahrungRow) (m : MautRow)
  : MautRow :=
  match last_row with
  | Some row => set_tage m (befahrung_tage row)
  | None => m
  end.

(** [update_mauttabelle_with_befahrung]. *)
Definition update_mauttabelle_with_befahrung (df_mauttabelle : list MautRow)
    (df_befahrung : list BefahrungRow) : list MautRow :=
  let df_mauttabelle :=
    List.filter (fun m => negb (contains_B (Bundesfernstrasse m)))
      df_mauttabelle in
  fold_left update_with_row df_befahrung df_mauttabelle.

(** The last row of [df_befahrung] for section [id], if any. *)
Definition last_befahrung (id : Z) (df_befahrung : list BefahrungRow)
  : option BefahrungRow :=
  last (List.filter (fun row => (id =? Strecken_ID row)%Z) df_befahrung).

Section Closest.

(** [np.sqrt]. *)
Variable sqrt : Q -> Q.

(** The entry of the distance column for one row of [df_filtered]
    (lines 119-126). *)
Definition distance_to (laengengrad breitengrad : Q) (m : MautRow) : Q :=
  sqrt ((((Laenge_Von m + Laenge_Nach m) / 2) - laengengrad) ^ 2
        + (((Breite_Von m + Breite_Nach m) / 2) - breitengrad) ^ 2)%Q.

(** [find_closest_row]. *)
Definition find_closest_row (ausschreibung_row : Standort)
    (df_mauttabelle : list MautRow) : Result MautRow :=
  let laengengrad := Laengengrad ausschreibung_row in
  let breitengrad := Breitengrad ausschreibung_row in
  let autobahn := Bundesautobahn ausschreibung_row in
  let df_filtered :=
    List.filter (fun m => str_eqb (Bundesfernstrasse m) autobahn)
      df_mauttabelle in
  match df_filtered with
  | [] => Raise ValueError
  | _ :: _ =>
      closest_index ←
        Pausenzuordnung.idxmin
          (distance_to laengengrad breitengrad <$> df_filtered);
      match df_filtered !! closest_index with
      | Some m => Ok m
      | None => Raise IndexError
      end
  end.

(** [assign_closest_rows]: every row of [df_ausschreibung] beside its
    closest section. *)
Definition assign_closest_rows (df_ausschreibung : list Standort)
    (df_mauttabelle : list MautRow) : Result (list (Standort * MautRow)) :=
  mapM (fun row => m ← find_closest_row row df_mauttabelle; Ok (row, m))
    df_ausschreibung.

(** Steps 3 and 4 of [main]. *)
Definition main_closest (df_ausschreibung : list Standort)
    (df_befahrung : list BefahrungRow) (df_mauttabelle : list MautRow)
  : Result (list (Standort * MautRow)) :=
  let df_mauttabelle :=
    update_mauttabelle_with_befahrung df_mauttabelle df_befahrung in
  assign_closest_rows df_ausschreibung df_mauttabelle.

End Closest.

End Ladebedarf.

(** ** Sample data *)

Module Sample.

Import Pausenkoordinaten Pausenzuordnung.

(** A generator whose every draw is [0]. *)
Definition zero_jitter (lo hi : Z) (g : unit) : Z * unit := (0%Z, g).

(** A linear congruential generator; the draw lies in [lo, hi). *)
Definition lcg (lo hi : Z) (g : Z) : Z * Z :=
  ((lo + (g / 65536) mod (hi - lo))%Z,
   ((g * 1103515245 + 12345) mod 2147483648)%Z).

(** A generator that replays a recorded list of draws. *)
Definition tape (lo hi : Z) (g : list Z) : Z * list Z :=
  match g with
  | [] => (0%Z, [])
  | jitter :: g' => (jitter, g')
  end.

(** Three edges of 200 km, one of 500 km, and their end nodes. *)
Definition net : Network :=
  mkNetwork
    (list_to_map [(1, 200%Q); (2, 200%Q); (3, 200%Q); (5, 500%Q)]%Z)
    (list_to_map [(1, 11); (2, 12); (3, 13); (5, 15)]%Z)
    (list_to_map [(11, 50%Q); (12, 51%Q); (13, 52%Q); (15, 53%Q)]%Z)
    (list_to_map [(11, 8%Q); (12, 9%Q); (13, 10%Q); (15, 11%Q)]%Z).

Definition trip_200 : Trip := mkTrip [1; 2; 3]%Z 0 7.
Definition trip_500 : Trip := mkTrip [5; 5; 5; 5; 5]%Z 0 3.
(** Edge 4 is not in [net]. *)
Definition trip_bad : Trip := mkTrip [1; 4; 3]%Z 0 9.

(** A reader of decimal numerals: an optional minus sign and one or more
    digits; anything else raises [ValueError]. *)
Definition digit (c : ascii) : option Z :=
  let n := Z.of_nat (nat_of_ascii c) in
  if ((48 <=? n) && (n <=? 57))%Z then Some (n - 48)%Z else None.

Fixpoint digits (acc : Z) (s : list ascii) : Result Z :=
  match s with
  | [] => Ok acc
  | c :: s' =>
      match digit c with
      | Some d => digits (10 * acc + d) s'
      | None => Raise ValueError
      end
  end.

Definition int_decimal (s : list ascii) : Result Z :=
  match s with
  | [] => Raise ValueError
  | c :: s' =>
      if Ascii.eqb c "-" then
        match s' with
        | [] => Raise ValueError
        | _ :: _ => z ← digits 0 s'; Ok (- z)%Z
        end
      else digits 0 s
  end.

(** The string ["[12,13,14]"], its fields, and the string ["[12,x,14]"]. *)
Definition path_12_13_14 : list ascii :=
  ["["; "1"; "2"; ","; "1"; "3"; ","; "1"; "4"; "]"]%char.
Definition fields_12_13_14 : list (list ascii) :=
  [["1"; "2"]; ["1"; "3"]; ["1"; "4"]]%char.
Definition path_12_x_14 : list ascii :=
  ["["; "1"; "2"; ","; "x"; ","; "1"; "4"; "]"]%char.

(** Four rows of the traffic flow: a one-driver row, a two-driver row, a
    row without distance and a row without trucks. *)
Definition flow : list FlowRow :=
  [mkFlowRow [1; 2; 3]%Z 0 600 7; mkFlowRow [5; 5; 5; 5; 5]%Z 0 5000 3;
   mkFlowRow [1]%Z 0 0 5; mkFlowRow [1]%Z 10 10 0].

(** The 13 draws a run over [trip_200], [trip_500] and again [trip_500]
    takes from [lcg] started at 42. *)
Definition recorded : list Z := Eval vm_compute in draws lcg 13 42%Z.

(** Two facilities with overlapping buffers of radius 10 at 0 and 8. *)
Definition kreise : list Line.Interval :=
  [Line.mkInterval 0 10; Line.mkInterval 8 10].

Definition standorte : list unit := [(); ()].

Definition rows : list (BreakRow (Point := Q)) :=
  [mkBreakRow 5%Q 3%Q; mkBreakRow 5%Q 4%Q; mkBreakRow 100%Q 1%Q].

(** Two facilities with buffers of radius 10 at 0 and at 100, and three
    breaks with the counts 0.1, 0.1 and 0.4: the first in the first
    buffer, the others in the second. *)
Definition discs : list Disc.Region := [Disc.buffer 10 0; Disc.buffer 10 100].

Definition fractional_rows : list (Pausenzuordnung64.BreakRow (Point := Q)) :=
  [Pausenzuordnung64.mkBreakRow 0%Q (Binary64.decimal 1 1);
   Pausenzuordnung64.mkBreakRow 100%Q (Binary64.decimal 1 1);
   Pausenzuordnung64.mkBreakRow 100%Q (Binary64.decimal 4 1)].

(** The same breaks with the counts 3, 4 and 1. *)
Definition whole_rows : list (Pausenzuordnung64.BreakRow (Point := Q)) :=
  [Pausenzuordnung64.mkBreakRow 0%Q (Binary64.of_Z 3);
   Pausenzuordnung64.mkBreakRow 100%Q (Binary64.of_Z 4);
   Pausenzuordnung64.mkBreakRow 100%Q (Binary64.of_Z 1)].

(** Two facilities at 0 and 8 with buffers of radius 0, and the same two
    with a buffer of radius 1 around the second. *)
Definition discs_radius_0 : list Disc.Region :=
  [Disc.buffer 0 0; Disc.buffer 0 8].

Definition discs_radius_0_and_1 : list Disc.Region :=
  [Disc.buffer 0 0; Disc.buffer 1 8].

(** Running totals 5 and 2, and a break of 4 trucks at 5, inside both
    buffers. *)
Definition totals : list Q := [5%Q; 2%Q].
Definition row_both : BreakRow (Point := Q) := mkBreakRow 5%Q 4%Q.

(** A break at -5, inside the first buffer only. *)
Definition row_first : BreakRow (Point := Q) := mkBreakRow (-5)%Q 4%Q.

(** A toll table of four sections: two of the A1, one of the B27 and one
    of the A7; three counts, two of them for section 2. *)
Definition werktags : Ladebedarf.Wochentage :=
  Ladebedarf.mkWochentage 1 2 3 4 5 6 7.
Definition erste_befahrung : Ladebedarf.Wochentage :=
  Ladebedarf.mkWochentage 10 20 30 40 50 60 70.
Definition letzte_befahrung : Ladebedarf.Wochentage :=
  Ladebedarf.mkWochentage 11 21 31 41 51 61 71.

Definition A1 : list ascii := ["A"; "1"]%char.
Definition A7 : list ascii := ["A"; "7"]%char.
Definition B27 : list ascii := ["B"; "2"; "7"]%char.

Definition abschnitt_2 : Ladebedarf.MautRow :=
  Ladebedarf.mkMautRow 2 A1 12 13 52 53 werktags.

Definition mauttabelle : list Ladebedarf.MautRow :=
  [Ladebedarf.mkMautRow 1 A1 10 11 50 51 werktags;
   abschnitt_2;
   Ladebedarf.mkMautRow 3 B27 9 9 48 48 werktags;
   Ladebedarf.mkMautRow 4 A7 10 10 50 50 werktags].

Definition befahrung : list Ladebedarf.BefahrungRow :=
  [Ladebedarf.mkBefahrungRow 2 erste_befahrung;
   Ladebedarf.mkBefahrungRow 9 erste_befahrung;
   Ladebedarf.mkBefahrungRow 2 letzte_befahrung].

(** A facility on the A1 near section 2, one on the A7 and one on the
    B27. *)
Definition standort_A1 : Ladebedarf.Standort :=
  Ladebedarf.mkStandort 12 52 A1 100 50.
Definition standort_A7 : Ladebedarf.Standort :=
  Ladebedarf.mkStandort 10 50 A7 10 5.
Definition standort_B27 : Ladebedarf.Standort :=
  Ladebedarf.mkStandort 9 48 B27 1 1.

(** Distances compared by their squares, which orders them as the
    distances. *)
Definition squared : Q -> Q := fun x => x.

End Sample.

(** * Properties *)

(** ** Exceptions and loops *)

Lemma bind_Ok {A B : Type} (r : Result A) (f : A -> Result B) (b : B) :
  r ≫= f = Ok b -> exists a, r = Ok a /\ f a = Ok b.
Proof. destruct r as [a|e]; [eauto | discriminate]. Qed.

Lemma getitem_Ok {V : Type} (d : gmap Z V) (k : Z) (v : V) :
  getitem d k = Ok v <-> d !! k = Some v.
Proof.
  unfold getitem. destruct (d !! k); split; intros H; congruence.
Qed.

Lemma getitem_None {V : Type} (d : gmap Z V) (k : Z) :
  d !! k = None -> getitem d k = Raise (KeyError k).
Proof. unfold getitem. intros ->. reflexivity. Qed.

Lemma for_each_Raise {A S : Type} (body : S -> A -> Result S) (l : list A) :
  forall s e, for_each body s l = Raise e ->
  exists s' x, x ∈ l /\ body s' x = Raise e.
Proof.
  induction l as [|x l IH]; intros s e H; simpl in H; [discriminate|].
  destruct (body s x) as [s'|e'] eqn:Hx; simpl in H.
  - apply IH in H as (s2 & y & Hin & Hy). exists s2, y.
    split; [apply elem_of_cons; right; assumption | assumption].
  - injection H as <-. exists s, x. split; [apply elem_of_cons; left; reflexivity | assumption].
Qed.

Lemma for_each_bad {A S : Type} (body : S -> A -> Result S) (l : list A) :
  (exists x, x ∈ l /\ forall s, exists e, body s x = Raise e) ->
  forall s, exists e, for_each body s l = Raise e.
Proof.
  induction l as [|x l IH]; intros (bad & Hin & Hbad) s.
  - inversion Hin.
  - simpl. destruct (body s x) as [s'|e] eqn:Hx; [|eauto].
    apply elem_of_cons in Hin as [-> | Hin].
    + destruct (Hbad s) as [e He]. congruence.
    + apply IH. eauto.
Qed.

Lemma enumerate_snd {A : Type} (l : list A) : (enumerate l).*2 = l.
Proof. unfold enumerate. apply snd_zip. rewrite length_seq. lia. Qed.

(** ** Break segmentation *)

Module PausenkoordinatenFacts.

Import Pausenkoordinaten.

Lemma odd_mod_2 (n : Z) : (n mod 2 =? 1)%Z = Z.odd n.
Proof. rewrite <- Z.bit0_mod, Z.bit0_odd. destruct (Z.odd n); reflexivity. Qed.

Section Blocks.

Context {G : Type}.
Variable randint : Z -> Z -> G -> Z * G.
Variable net : Network.
Variable trip_distance : Q.

(** One edge of a one-driver trip either leaves counter and output
    alone or appends the break with the next number. *)
Lemma single_edge_Ok index traffic t b g out e t' b' g' out' :
  single_edge randint net trip_distance index traffic (t, b, g, out) e
    = Ok (t', b', g', out') ->
  (b' = b /\ out' = out) \/
  (exists ev, b' = (b + 1)%Z /\ out' = out ++ [ev] /\
     Trip_ID ev = index /\ Driver ev = 1%Z /\ Break_Nr ev = (b + 1)%Z /\
     Break_Type ev = single_driver_type (b + 1)).
Proof.
  unfold single_edge. intros H.
  apply bind_Ok in H as (len & _ & H).
  destruct (randint (-50) 50 g) as [jitter g1].
  destruct (Qgtb _ _).
  - apply bind_Ok in H as (bl & _ & H). apply bind_Ok in H as (nd & _ & H).
    apply bind_Ok in H as (la & _ & H). apply bind_Ok in H as (lo & _ & H).
    injection H as <- <- <- <-. right. eexists. repeat split.
    simpl. unfold single_driver_type. rewrite odd_mod_2. reflexivity.
  - injection H as <- <- <- <-. left. split; reflexivity.
Qed.

Lemma single_loop_numbered index traffic es : forall t b g out t' b' g' out',
  for_each (single_edge randint net trip_distance index traffic)
    (t, b, g, out) es = Ok (t', b', g', out') ->
  exists evs, out' = out ++ evs /\ b' = (b + Z.of_nat (length evs))%Z /\
    numbered 1 index single_driver_type b evs.
Proof.
  induction es as [|e es IH]; intros t b g out t' b' g' out' H; simpl in H.
  - injection H as <- <- <- <-. exists []. rewrite app_nil_r.
    split; [reflexivity | split; [simpl; lia | intros k ev Hk; discriminate]].
  - apply bind_Ok in H as ([[[t1 b1] g1] out1] & Hstep & H).
    apply single_edge_Ok in Hstep as [[-> ->] | (ev & -> & -> & Hev)].
    + eauto.
    + apply IH in H as (evs & -> & -> & Hnum). exists (ev :: evs).
      rewrite <- app_assoc.
      split; [reflexivity | split; [simpl length; lia |]].
      intros [|k] ev' Hk; simpl in Hk.
      * injection Hk as <-. destruct Hev as (? & ? & ? & ?).
        repeat split; try assumption; rewrite Z.add_0_r; assumption.
      * apply Hnum in Hk as (? & ? & ? & ?).
        repeat split; try assumption;
          replace (b + Z.of_nat (S k) + 1)%Z with (b + 1 + Z.of_nat k + 1)%Z
            by lia; assumption.
Qed.

(** One edge of a two-driver trip; [breaks_reset] stays [breaks mod 4]. *)
Lemma two_edge_Ok index traffic t b r g out e t' b' r' g' out' :
  two_edge randint net trip_distance index traffic (t, b, r, g, out) e
    = Ok (t', b', r', g', out') ->
  r = (b mod 4)%Z ->
  (b' = b /\ r' = r /\ out' = out) \/
  (exists ev, b' = (b + 1)%Z /\ r' = ((b + 1) mod 4)%Z /\
     out' = out ++ [ev] /\
     Trip_ID ev = index /\ Driver ev = 2%Z /\ Break_Nr ev = (b + 1)%Z /\
     Break_Type ev = two_driver_type (b + 1)).
Proof.
  unfold two_edge. intros H Hr.
  apply bind_Ok in H as (len & _ & H).
  destruct (randint (-50) 50 g) as [jitter g1].
  destruct (Qgtb _ _).
  - apply bind_Ok in H as (bl & _ & H). apply bind_Ok in H as (nd & _ & H).
    apply bind_Ok in H as (la & _ & H). apply bind_Ok in H as (lo & _ & H).
    assert (Hmod : (0 <= b mod 4 < 4)%Z) by (apply Z.mod_pos_bound; lia).
    assert (Hdiv : (b = 4 * (b / 4) + b mod 4)%Z) by (apply Z.div_mod; lia).
    right. unfold two_driver_type.
    destruct (Z.leb_spec r 2) as [Hle | Hgt]; injection H as <- <- <- <- <-.
    + assert (Hnext : ((b + 1) mod 4 = r + 1)%Z).
      { symmetry. apply (Z.mod_unique_pos _ _ (b / 4)); lia. }
      eexists. split; [reflexivity|]. split; [congruence|].
      split; [reflexivity|]. simpl. rewrite Hnext.
      destruct (Z.eqb_spec (r + 1) 0); [lia | repeat split].
    + assert (Hnext : ((b + 1) mod 4 = 0)%Z).
      { symmetry. apply (Z.mod_unique_pos _ _ (b / 4 + 1)); lia. }
      eexists. split; [reflexivity|]. split; [congruence|].
      split; [reflexivity|]. simpl. rewrite Hnext. repeat split.
  - injection H as <- <- <- <- <-. left. repeat split.
Qed.

Lemma two_loop_numbered index traffic es :
  forall t b r g out t' b' r' g' out',
  for_each (two_edge randint net trip_distance index traffic)
    (t, b, r, g, out) es = Ok (t', b', r', g', out') ->
  r = (b mod 4)%Z ->
  exists evs, out' = out ++ evs /\ numbered 2 index two_driver_type b evs.
Proof.
  induction es as [|e es IH]; intros t b r g out t' b' r' g' out' H Hr;
    simpl in H.
  - injection H as <- <- <- <- <-. exists []. rewrite app_nil_r.
    split; [reflexivity | intros k ev Hk; discriminate].
  - apply bind_Ok in H as ([[[[t1 b1] r1] g1] out1] & Hstep & H).
    apply two_edge_Ok in Hstep as [(-> & -> & ->) | (ev & -> & -> & -> & Hev)];
      [eauto | | assumption].
    apply IH in H as (evs & -> & Hnum); [|reflexivity]. exists (ev :: evs).
    rewrite <- app_assoc. split; [reflexivity|].
    intros [|k] ev' Hk; simpl in Hk.
    + injection Hk as <-. destruct Hev as (? & ? & ? & ?).
      repeat split; try assumption; rewrite Z.add_0_r; assumption.
    + apply Hnum in Hk as (? & ? & ? & ?).
      repeat split; try assumption;
        replace (b + Z.of_nat (S k) + 1)%Z with (b + 1 + Z.of_nat k + 1)%Z
          by lia; assumption.
Qed.

(** Each trip appends one consecutively numbered block. *)
Lemma single_trip_numbered g out index trip g' out' :
  single_trip randint net trip_distance (g, out) (index, trip)
    = Ok (g', out') ->
  exists evs, out' = out ++ evs /\ numbered 1 index single_driver_type 0 evs.
Proof.
  unfold single_trip. intros H.
  apply bind_Ok in H as ([[[t1 b1] g1] out1] & Hloop & H).
  injection H as <- <-.
  apply single_loop_numbered in Hloop as (evs & -> & _ & Hnum). eauto.
Qed.

Lemma two_trip_numbered g out index trip g' out' :
  two_trip randint net trip_distance (g, out) (index, trip)
    = Ok (g', out') ->
  exists evs, out' = out ++ evs /\ numbered 2 index two_driver_type 0 evs.
Proof.
  unfold two_trip. intros H.
  apply bind_Ok in H as ([[[[t1 b1] r1] g1] out1] & Hloop & H).
  injection H as <- <-.
  apply two_loop_numbered in Hloop as (evs & -> & Hnum); eauto.
Qed.

End Blocks.

Lemma numbered_Forall driver index type_of b evs :
  numbered driver index type_of b evs ->
  Forall (fun ev => Driver ev = driver /\ Trip_ID ev = index) evs.
Proof.
  intros Hnum. apply Forall_lookup. intros k ev Hk.
  apply Hnum in Hk as (? & ? & _). split; assumption.
Qed.

Lemma breaks_of_all driver index evs :
  Forall (fun ev => Driver ev = driver /\ Trip_ID ev = index) evs ->
  breaks_of driver index evs = evs.
Proof.
  unfold breaks_of. induction 1 as [|ev evs Hev _ IH]; [reflexivity|].
  rewrite filter_cons_True by assumption. rewrite IH. reflexivity.
Qed.

Lemma breaks_of_none driver index evs :
  Forall (fun ev => ~ (Driver ev = driver /\ Trip_ID ev = index)) evs ->
  breaks_of driver index evs = [].
Proof.
  unfold breaks_of. induction 1 as [|ev evs Hev _ IH]; [reflexivity|].
  rewrite filter_cons_False by assumption. exact IH.
Qed.

Lemma breaks_of_app driver index evs1 evs2 :
  breaks_of driver index (evs1 ++ evs2)
  = breaks_of driver index evs1 ++ breaks_of driver index evs2.
Proof. apply filter_app. Qed.

(** A loop over enumerated trips appends, trip by trip, blocks that are
    numbered from 1; the blocks of different trips do not mix. *)
Lemma trips_numbered {G : Type}
    (step : G * list Break -> nat * Trip -> Result (G * list Break))
    (driver : Z) (type_of : Z -> BreakType) :
  (forall g out index trip g' out',
     step (g, out) (index, trip) = Ok (g', out') ->
     exists evs, out' = out ++ evs /\ numbered driver index type_of 0 evs) ->
  forall trips start g out g' out',
    for_each step (g, out) (zip (seq start (length trips)) trips)
      = Ok (g', out') ->
    exists evs, out' = out ++ evs /\
      Forall (fun ev => Driver ev = driver /\ start <= Trip_ID ev) evs /\
      forall index, numbered driver index type_of 0 (breaks_of driver index evs).
Proof.
  intros Hstep. induction trips as [|trip trips IH];
    intros start g out g' out' H; simpl in H.
  - injection H as <- <-. exists []. rewrite app_nil_r.
    split; [reflexivity | split; [constructor|]].
    intros index k ev Hk. discriminate.
  - apply bind_Ok in H as ([g1 out1] & H1 & H).
    apply Hstep in H1 as (evs1 & -> & Hnum1).
    apply IH in H as (evs2 & -> & Hall2 & Hnum2).
    pose proof (numbered_Forall _ _ _ _ _ Hnum1) as Hall1.
    exists (evs1 ++ evs2). rewrite <- app_assoc. split; [reflexivity|]. split.
    + apply Forall_app. split.
      * eapply Forall_impl; [exact Hall1|]. simpl. intros ev [? ?]. split; [assumption | lia].
      * eapply Forall_impl; [exact Hall2|]. simpl. intros ev [? ?]. split; [assumption | lia].
    + intros index. rewrite breaks_of_app.
      destruct (decide (index = start)) as [-> | Hne].
      * rewrite (breaks_of_all _ _ evs1) by assumption.
        rewrite (breaks_of_none _ _ evs2), app_nil_r; [assumption|].
        eapply Forall_impl; [exact Hall2|]. simpl. intros ev [? ?] [? ?]. lia.
      * rewrite (breaks_of_none _ _ evs1); [apply Hnum2|].
        eapply Forall_impl; [exact Hall1|]. simpl. intros ev [? ?] [? ?]. congruence.
Qed.

(** The output of [main]: the blocks of the one-driver trips, then the
    blocks of the two-driver trips. *)
Lemma main_breaks_numbered {G : Type} (randint : Z -> Z -> G -> Z * G) net
    trip_distance single two g dict_break :
  main_breaks randint net trip_distance single two g = Ok dict_break ->
  forall index,
    numbered 1 index single_driver_type 0 (breaks_of 1 index dict_break) /\
    numbered 2 index two_driver_type 0 (breaks_of 2 index dict_break).
Proof.
  unfold main_breaks, enumerate. intros H index.
  apply bind_Ok in H as ([g1 out1] & H1 & H).
  apply bind_Ok in H as ([g2 out2] & H2 & H). injection H as <-.
  apply (trips_numbered _ 1%Z single_driver_type) in H1
    as (evs1 & -> & Hall1 & Hnum1);
    [|intros *; apply single_trip_numbered].
  apply (trips_numbered _ 2%Z two_driver_type) in H2
    as (evs2 & -> & Hall2 & Hnum2);
    [|intros *; apply two_trip_numbered].
  simpl. rewrite !breaks_of_app. split.
  - rewrite (breaks_of_none 1 _ evs2), app_nil_r; [apply Hnum1|].
    eapply Forall_impl; [exact Hall2|]. simpl. intros ev [? ?] [? ?]. lia.
  - rewrite (breaks_of_none 2 _ evs1); [apply Hnum2|].
    eapply Forall_impl; [exact Hall1|]. simpl. intros ev [? ?] [? ?]. lia.
Qed.

(** C3. In the output of [main], the [k]-th break (counted from 1) of every
    one-driver trip carries the number [k] and is [short] when [k] is odd
    and [long] when [k] is even: the types of a trip read short, long,
    short, long, ... *)
Theorem single_driver_alternation {G : Type} (randint : Z -> Z -> G -> Z * G)
    net single two g dict_break index (k : nat) ev :
  main randint net single two g = Ok dict_break ->
  breaks_of 1 index dict_break !! k = Some ev ->
  Break_Nr ev = (Z.of_nat k + 1)%Z /\
  Break_Type ev = if Z.odd (Z.of_nat k + 1) then short else long.
Proof.
  intros Hmain Hk.
  apply main_breaks_numbered with (index := index) in Hmain as [Hnum _].
  apply Hnum in Hk as (_ & _ & Hnr & Hty). split; assumption.
Qed.

(** C4. In the output of [main], the [k]-th break (counted from 1) of every
    two-driver trip carries the number [k] and is [long] when [k] is a
    multiple of 4 and [short] otherwise: the types of a trip read short,
    short, short, long, short, short, short, long, ... *)
Theorem two_driver_alternation {G : Type} (randint : Z -> Z -> G -> Z * G)
    net single two g dict_break index (k : nat) ev :
  main randint net single two g = Ok dict_break ->
  breaks_of 2 index dict_break !! k = Some ev ->
  Break_Nr ev = (Z.of_nat k + 1)%Z /\
  Break_Type ev = if ((Z.of_nat k + 1) mod 4 =? 0)%Z then long else short.
Proof.
  intros Hmain Hk.
  apply main_breaks_numbered with (index := index) in Hmain as [_ Hnum].
  apply Hnum in Hk as (_ & _ & Hnr & Hty). split; assumption.
Qed.


(** *** An unknown edge ends the run *)

Lemma getitem_raises {V : Type} (d : gmap Z V) k e :
  getitem d k = Raise e -> e = KeyError k /\ d !! k = None.
Proof.
  unfold getitem. destruct (d !! k); intros H; [discriminate|].
  injection H as <-. split; reflexivity.
Qed.

Ltac step_getitem H :=
  match type of H with
  | (getitem ?d ?k ≫= _) = Raise _ =>
      let Hg := fresh "Hg" in
      destruct (getitem d k) eqn:Hg; simpl in H;
      [| injection H as <-; apply getitem_raises in Hg as [-> Hg];
         unfold missing_key; eauto 7]
  end.

Section Unknown.

Context {G : Type}.
Variable randint : Z -> Z -> G -> Z * G.
Variable net : Network.
Variable trip_distance : Q.

Lemma single_edge_raises index traffic st e err :
  single_edge randint net trip_distance index traffic st e = Raise err ->
  missing_key net err.
Proof.
  destruct st as [[[t b] g] out]. unfold single_edge. intros H.
  step_getitem H. destruct (randint (-50) 50 g) as [jitter g1].
  destruct (Qgtb _ _); [|discriminate].
  repeat step_getitem H. discriminate.
Qed.

Lemma two_edge_raises index traffic st e err :
  two_edge randint net trip_distance index traffic st e = Raise err ->
  missing_key net err.
Proof.
  destruct st as [[[[t b] r] g] out]. unfold two_edge. intros H.
  step_getitem H. destruct (randint (-50) 50 g) as [jitter g1].
  destruct (Qgtb _ _); [|discriminate].
  repeat step_getitem H. destruct (_ <=? _)%Z; discriminate.
Qed.

Lemma single_edge_unknown index traffic st e :
  dict_edge_length net !! e = None ->
  single_edge randint net trip_distance index traffic st e
    = Raise (KeyError e).
Proof.
  destruct st as [[[t b] g] out]. unfold single_edge. intros H.
  rewrite (getitem_None _ _ H). reflexivity.
Qed.

Lemma two_edge_unknown index traffic st e :
  dict_edge_length net !! e = None ->
  two_edge randint net trip_distance index traffic st e
    = Raise (KeyError e).
Proof.
  destruct st as [[[[t b] r] g] out]. unfold two_edge. intros H.
  rewrite (getitem_None _ _ H). reflexivity.
Qed.

Lemma single_trip_raises st it err :
  single_trip randint net trip_distance st it = Raise err ->
  missing_key net err.
Proof.
  destruct st as [g out], it as [index trip]. unfold single_trip.
  destruct (for_each _ _ _) as [[[[t1 b1] g1] out1]|e] eqn:Hloop; simpl;
    [discriminate|]. intros H. injection H as <-.
  apply for_each_Raise in Hloop as (s' & x & _ & Hx).
  eapply single_edge_raises, Hx.
Qed.

Lemma two_trip_raises st it err :
  two_trip randint net trip_distance st it = Raise err ->
  missing_key net err.
Proof.
  destruct st as [g out], it as [index trip]. unfold two_trip.
  destruct (for_each _ _ _) as [[[[[t1 b1] r1] g1] out1]|e] eqn:Hloop; simpl;
    [discriminate|]. intros H. injection H as <-.
  apply for_each_Raise in Hloop as (s' & x & _ & Hx).
  eapply two_edge_raises, Hx.
Qed.

Lemma single_trip_unknown st index trip :
  has_unknown_edge net trip ->
  exists err, single_trip randint net trip_distance st (index, trip)
              = Raise err.
Proof.
  destruct st as [g out]. intros (e & Hin & Hnone). unfold single_trip.
  destruct (for_each_bad (single_edge randint net trip_distance index
                            (trip_traffic trip)) (edges_list trip))
    with (s := (distance_origin_road trip, 0%Z, g, out)) as [err Herr].
  - exists e. split; [assumption|]. intros s. eexists.
    apply single_edge_unknown, Hnone.
  - rewrite Herr. eauto.
Qed.

Lemma two_trip_unknown st index trip :
  has_unknown_edge net trip ->
  exists err, two_trip randint net trip_distance st (index, trip)
              = Raise err.
Proof.
  destruct st as [g out]. intros (e & Hin & Hnone). unfold two_trip.
  destruct (for_each_bad (two_edge randint net trip_distance index
                            (trip_traffic trip)) (edges_list trip))
    with (s := (distance_origin_road trip, 0%Z, 0%Z, g, out)) as [err Herr].
  - exists e. split; [assumption|]. intros s. eexists.
    apply two_edge_unknown, Hnone.
  - rewrite Herr. eauto.
Qed.

(** Every exception of the run is a [KeyError]. *)
Lemma main_breaks_raises single two g err :
  main_breaks randint net trip_distance single two g = Raise err ->
  missing_key net err.
Proof.
  unfold main_breaks.
  destruct (for_each _ _ (enumerate single)) as [st|e] eqn:H1; simpl.
  - destruct (for_each _ _ (enumerate two)) as [[g2 out2]|e] eqn:H2; simpl;
      [discriminate|]. intros H. injection H as <-.
    apply for_each_Raise in H2 as (s' & x & _ & Hx).
    eapply two_trip_raises, Hx.
  - intros H. injection H as <-.
    apply for_each_Raise in H1 as (s' & x & _ & Hx).
    eapply single_trip_raises, Hx.
Qed.

Lemma enumerate_elem (trips : list Trip) trip :
  trip ∈ trips -> exists index, (index, trip) ∈ enumerate trips.
Proof.
  intros Hin. rewrite <- (enumerate_snd trips) in Hin.
  apply list_elem_of_fmap in Hin as ([index trip'] & -> & Hin). eauto.
Qed.

Lemma main_breaks_unknown single two g trip :
  trip ∈ single ++ two -> has_unknown_edge net trip ->
  exists err,
    main_breaks randint net trip_distance single two g = Raise err /\
    missing_key net err.
Proof.
  intros Hin Hbad.
  assert (exists err, main_breaks randint net trip_distance single two g
                      = Raise err) as [err Herr].
  { unfold main_breaks. apply elem_of_app in Hin as [Hin | Hin];
      apply enumerate_elem in Hin as [index Hin].
    - destruct (for_each_bad (single_trip randint net trip_distance)
                  (enumerate single)) with (s := (g, @nil Break))
        as [err Herr].
      + exists (index, trip). split; [assumption|]. intros s.
        apply single_trip_unknown, Hbad.
      + rewrite Herr. eauto.
    - destruct (for_each _ _ (enumerate single)) as [st|e]; simpl; [|eauto].
      destruct (for_each_bad (two_trip randint net trip_distance)
                  (enumerate two)) with (s := st) as [err Herr].
      + exists (index, trip). split; [assumption|]. intros s.
        apply two_trip_unknown, Hbad.
      + rewrite Herr. eauto. }
  exists err. split; [assumption | eapply main_breaks_raises, Herr].
Qed.

End Unknown.

(** C2 (amended). An edge id that [dict_edge_length] does not hold, in any
    trip of the batch, ends the whole run: [main] raises a [KeyError] for
    a key missing from the dictionaries and returns no break at all, for
    no trip. *)
Theorem unknown_edge_ends_run {G : Type} (randint : Z -> Z -> G -> Z * G)
    net single two g trip :
  trip ∈ single ++ two ->
  has_unknown_edge net trip ->
  exists err, main randint net single two g = Raise err /\ missing_key net err.
Proof. apply main_breaks_unknown. Qed.

(** *** Known edges: the run returns *)

Section Known.

Context {G : Type}.
Variable randint : Z -> Z -> G -> Z * G.
Variable net : Network.
Variable trip_distance : Q.

Lemma single_edge_known index traffic st e :
  known_edge net e ->
  exists st', single_edge randint net trip_distance index traffic st e
              = Ok st'.
Proof.
  destruct st as [[[t b] g] out]. intros (len & nd & la & lo & H1 & H2 & H3 & H4).
  unfold single_edge.
  apply getitem_Ok in H1, H2, H3, H4. rewrite H1. simpl.
  destruct (randint (-50) 50 g) as [jitter g1].
  destruct (Qgtb _ _); [|eauto].
  rewrite H2. simpl. rewrite H3. simpl. rewrite H4. simpl. eauto.
Qed.

Lemma two_edge_known index traffic st e :
  known_edge net e ->
  exists st', two_edge randint net trip_distance index traffic st e = Ok st'.
Proof.
  destruct st as [[[[t b] r] g] out].
  intros (len & nd & la & lo & H1 & H2 & H3 & H4). unfold two_edge.
  apply getitem_Ok in H1, H2, H3, H4. rewrite H1. simpl.
  destruct (randint (-50) 50 g) as [jitter g1].
  destruct (Qgtb _ _); [|eauto].
  rewrite H2. simpl. rewrite H3. simpl. rewrite H4. simpl.
  destruct (_ <=? _)%Z; eauto.
Qed.

Lemma for_each_total {A S : Type} (body : S -> A -> Result S) (l : list A) :
  Forall (fun x => forall s, exists s', body s x = Ok s') l ->
  forall s, exists s', for_each body s l = Ok s'.
Proof.
  induction 1 as [|x l Hx _ IH]; intros s; simpl; [eauto|].
  destruct (Hx s) as [s1 ->]. simpl. apply IH.
Qed.

Lemma single_trip_known st index trip :
  known_trip net trip ->
  exists st', single_trip randint net trip_distance st (index, trip) = Ok st'.
Proof.
  destruct st as [g out]. intros Hk. unfold single_trip.
  destruct (for_each_total (single_edge randint net trip_distance index
                              (trip_traffic trip)) (edges_list trip))
    with (s := (distance_origin_road trip, 0%Z, g, out))
    as [[[[t1 b1] g1] out1] ->]; [|simpl; eauto].
  eapply Forall_impl; [exact Hk|]. intros e He s.
  apply single_edge_known, He.
Qed.

Lemma two_trip_known st index trip :
  known_trip net trip ->
  exists st', two_trip randint net trip_distance st (index, trip) = Ok st'.
Proof.
  destruct st as [g out]. intros Hk. unfold two_trip.
  destruct (for_each_total (two_edge randint net trip_distance index
                              (trip_traffic trip)) (edges_list trip))
    with (s := (distance_origin_road trip, 0%Z, 0%Z, g, out))
    as [[[[[t1 b1] r1] g1] out1] ->]; [|simpl; eauto].
  eapply Forall_impl; [exact Hk|]. intros e He s.
  apply two_edge_known, He.
Qed.

Lemma enumerate_Forall (P : Trip -> Prop) (trips : list Trip) :
  Forall P trips -> Forall (fun it => P it.2) (enumerate trips).
Proof.
  intros H. rewrite <- (enumerate_snd trips) in H.
  rewrite Forall_fmap in H. exact H.
Qed.

(** With every edge of every trip on file, the run returns its breaks. *)
Lemma main_breaks_known single two g :
  Forall (known_trip net) (single ++ two) ->
  exists dict_break,
    main_breaks randint net trip_distance single two g = Ok dict_break.
Proof.
  intros H. apply Forall_app in H as [H1 H2]. unfold main_breaks.
  destruct (for_each_total (single_trip randint net trip_distance)
              (enumerate single)) with (s := (g, @nil Break)) as [st ->].
  { eapply Forall_impl; [apply enumerate_Forall, H1|].
    intros [index trip] Hk s. apply single_trip_known, Hk. }
  simpl.
  destruct (for_each_total (two_trip randint net trip_distance)
              (enumerate two)) with (s := st) as [[g2 out2] ->].
  { eapply Forall_impl; [apply enumerate_Forall, H2|].
    intros [index trip] Hk s. apply two_trip_known, Hk. }
  simpl. eauto.
Qed.

(** *** One step, no break or break *)

Lemma single_edge_drive index traffic t b g out e len jitter g' :
  dict_edge_length net !! e = Some len ->
  randint (-50) 50 g = (jitter, g') ->
  Qgtb (t + len) (trip_distance + inject_Z jitter) = false ->
  single_edge randint net trip_distance index traffic (t, b, g, out) e
    = Ok ((t + len)%Q, b, g', out).
Proof.
  intros H1 Hr Hcmp. unfold single_edge.
  apply getitem_Ok in H1. rewrite H1. simpl. rewrite Hr, Hcmp. reflexivity.
Qed.

Lemma single_edge_break index traffic t b g out e len jitter g' nd la lo :
  dict_edge_length net !! e = Some len ->
  dict_edge_node_b net !! e = Some nd ->
  dict_node_lat net !! nd = Some la ->
  dict_node_lon net !! nd = Some lo ->
  randint (-50) 50 g = (jitter, g') ->
  Qgtb (t + len) (trip_distance + inject_Z jitter) = true ->
  single_edge randint net trip_distance index traffic (t, b, g, out) e
    = Ok (0%Q, (b + 1)%Z, g',
          out ++ [mkBreak index 1 (b + 1)
                    (if ((b + 1) mod 2 =? 1)%Z then short else long)
                    e len nd la lo traffic]).
Proof.
  intros H1 H2 H3 H4 Hr Hcmp. unfold single_edge.
  apply getitem_Ok in H1, H2, H3, H4. rewrite H1. simpl. rewrite Hr, Hcmp.
  rewrite H2. simpl. rewrite H3. simpl. rewrite H4. reflexivity.
Qed.

End Known.

(** C9. A one-driver trip over three edges of 200 km, starting at distance
    0, with the configured threshold of 360 km and a generator whose every
    draw is 0: [main] returns exactly one break, number 1, of type [short],
    at the end node of the second edge. *)
Theorem scenario_three_edges_of_200 {G : Type}
    (randint : Z -> Z -> G -> Z * G) net e1 e2 e3 node lat lon traffic g :
  (forall lo hi g', (randint lo hi g').1 = 0%Z) ->
  dict_edge_length net !! e1 = Some 200%Q ->
  dict_edge_length net !! e2 = Some 200%Q ->
  dict_edge_length net !! e3 = Some 200%Q ->
  dict_edge_node_b net !! e2 = Some node ->
  dict_node_lat net !! node = Some lat ->
  dict_node_lon net !! node = Some lon ->
  main randint net [mkTrip [e1; e2; e3] 0 traffic] [] g
  = Ok [mkBreak 0 1 1 short e2 200 node lat lon traffic].
Proof.
  intros Hzero H1 H2 H3 Hn Hla Hlo.
  assert (Hdraw : forall g', randint (-50)%Z 50%Z g'
                             = (0%Z, (randint (-50)%Z 50%Z g').2)).
  { intros g'. rewrite <- (Hzero (-50)%Z 50%Z g'). apply surjective_pairing. }
  unfold main, main_breaks, enumerate, single_trip. cbn -[single_edge].
  erewrite single_edge_drive by (eauto; reflexivity). cbn -[single_edge].
  erewrite single_edge_break by (eauto; reflexivity). cbn -[single_edge].
  erewrite single_edge_drive by (eauto; reflexivity). reflexivity.
Qed.

(** *** The breaks depend on the generator through its draws only *)

Lemma result_rel_bind {A1 A2 B1 B2 : Type} (R : A1 -> A2 -> Prop)
    (R' : B1 -> B2 -> Prop) r1 r2 (f1 : A1 -> Result B1) (f2 : A2 -> Result B2) :
  result_rel R r1 r2 ->
  (forall a1 a2, R a1 a2 -> result_rel R' (f1 a1) (f2 a2)) ->
  result_rel R' (r1 ≫= f1) (r2 ≫= f2).
Proof.
  intros [a1 a2 Ha | e] Hf; simpl; [apply Hf, Ha | constructor].
Qed.

(** Two loops over the same list stay related when each body call uses up
    [cost x] of a budget [n] that indexes the relation. *)
Lemma for_each_rel {A S1 S2 : Type} (cost : A -> nat)
    (R : nat -> S1 -> S2 -> Prop)
    (body1 : S1 -> A -> Result S1) (body2 : S2 -> A -> Result S2) :
  (forall n s1 s2 x,
     R (cost x + n) s1 s2 -> result_rel (R n) (body1 s1 x) (body2 s2 x)) ->
  forall l n s1 s2,
    R (sum_list (cost <$> l) + n) s1 s2 ->
    result_rel (R n) (for_each body1 s1 l) (for_each body2 s2 l).
Proof.
  intros Hbody. induction l as [|x l IH]; intros n s1 s2 HR; simpl in *.
  - constructor. exact HR.
  - rewrite <- Nat.add_assoc in HR.
    eapply result_rel_bind; [apply Hbody, HR|].
    intros a1 a2 Ha. apply IH, Ha.
Qed.

Lemma sum_list_ones {A : Type} (l : list A) :
  sum_list ((fun _ => 1) <$> l) = length l.
Proof. induction l as [|x l IH]; simpl; [reflexivity | f_equal; exact IH]. Qed.

Lemma total_edges_app trips1 trips2 :
  total_edges (trips1 ++ trips2) = total_edges trips1 + total_edges trips2.
Proof. unfold total_edges. rewrite !fmap_app. apply sum_list_with_app. Qed.

Lemma total_edges_enumerate trips :
  sum_list ((fun it : nat * Trip => length (edges_list it.2))
              <$> enumerate trips)
  = total_edges trips.
Proof.
  unfold total_edges. rewrite <- (enumerate_snd trips) at 2.
  rewrite <- !list_fmap_compose. reflexivity.
Qed.

Section Draws.

Context {G1 G2 : Type}.
Variable randint1 : Z -> Z -> G1 -> Z * G1.
Variable randint2 : Z -> Z -> G2 -> Z * G2.
Variable net : Network.
Variable trip_distance : Q.

Local Abbreviation same_draws := (same_draws randint1 randint2).
Local Abbreviation single_rel := (single_rel randint1 randint2).
Local Abbreviation two_rel := (two_rel randint1 randint2).
Local Abbreviation trip_rel := (trip_rel randint1 randint2).

Lemma same_draws_step n g1 g2 j1 g1' j2 g2' :
  same_draws (S n) g1 g2 ->
  randint1 (-50) 50 g1 = (j1, g1') ->
  randint2 (-50) 50 g2 = (j2, g2') ->
  j1 = j2 /\ same_draws n g1' g2'.
Proof.
  unfold Pausenkoordinaten.same_draws. simpl. intros H E1 E2.
  rewrite E1, E2 in H. injection H as -> H.
  split; [reflexivity | exact H].
Qed.

Lemma single_edge_rel index traffic n s1 s2 e :
  single_rel (1 + n) s1 s2 ->
  result_rel (single_rel n)
    (single_edge randint1 net trip_distance index traffic s1 e)
    (single_edge randint2 net trip_distance index traffic s2 e).
Proof.
  destruct s1 as [[[t1 b1] g1] out1], s2 as [[[t2 b2] g2] out2].
  intros (<- & <- & <- & Hd). unfold single_edge.
  destruct (getitem (dict_edge_length net) e) as [len|err]; simpl;
    [|constructor].
  destruct (randint1 (-50) 50 g1) as [j1 g1'] eqn:E1.
  destruct (randint2 (-50) 50 g2) as [j2 g2'] eqn:E2.
  destruct (same_draws_step _ _ _ _ _ _ _ Hd E1 E2) as [<- Hd'].
  destruct (Qgtb _ _); [|constructor; repeat split; assumption].
  destruct (getitem (dict_edge_node_b net) e) as [nd|err]; simpl;
    [|constructor].
  destruct (getitem (dict_node_lat net) nd) as [la|err]; simpl;
    [|constructor].
  destruct (getitem (dict_node_lon net) nd) as [lo|err]; simpl;
    [|constructor].
  constructor. repeat split; assumption.
Qed.

Lemma two_edge_rel index traffic n s1 s2 e :
  two_rel (1 + n) s1 s2 ->
  result_rel (two_rel n)
    (two_edge randint1 net trip_distance index traffic s1 e)
    (two_edge randint2 net trip_distance index traffic s2 e).
Proof.
  destruct s1 as [[[[t1 b1] r1] g1] out1], s2 as [[[[t2 b2] r2] g2] out2].
  intros (<- & <- & <- & <- & Hd). unfold two_edge.
  destruct (getitem (dict_edge_length net) e) as [len|err]; simpl;
    [|constructor].
  destruct (randint1 (-50) 50 g1) as [j1 g1'] eqn:E1.
  destruct (randint2 (-50) 50 g2) as [j2 g2'] eqn:E2.
  destruct (same_draws_step _ _ _ _ _ _ _ Hd E1 E2) as [<- Hd'].
  destruct (Qgtb _ _); [|constructor; repeat split; assumption].
  destruct (getitem (dict_edge_node_b net) e) as [nd|err]; simpl;
    [|constructor].
  destruct (getitem (dict_node_lat net) nd) as [la|err]; simpl;
    [|constructor].
  destruct (getitem (dict_node_lon net) nd) as [lo|err]; simpl;
    [|constructor].
  destruct (_ <=? _)%Z; constructor; repeat split; assumption.
Qed.

Lemma single_trip_rel n s1 s2 (it : nat * Trip) :
  trip_rel (length (edges_list it.2) + n) s1 s2 ->
  result_rel (trip_rel n)
    (single_trip randint1 net trip_distance s1 it)
    (single_trip randint2 net trip_distance s2 it).
Proof.
  destruct s1 as [g1 out1], s2 as [g2 out2], it as [index trip].
  unfold Pausenkoordinaten.trip_rel. simpl. intros [<- Hd]. unfold single_trip.
  eapply result_rel_bind.
  - apply (for_each_rel (fun _ => 1) single_rel).
    + intros m s1 s2 e. apply single_edge_rel.
    + rewrite sum_list_ones. repeat split. exact Hd.
  - intros [[[t1 b1] g1'] o1] [[[t2 b2] g2'] o2] (_ & _ & <- & Hd').
    constructor. split; [reflexivity | exact Hd'].
Qed.

Lemma two_trip_rel n s1 s2 (it : nat * Trip) :
  trip_rel (length (edges_list it.2) + n) s1 s2 ->
  result_rel (trip_rel n)
    (two_trip randint1 net trip_distance s1 it)
    (two_trip randint2 net trip_distance s2 it).
Proof.
  destruct s1 as [g1 out1], s2 as [g2 out2], it as [index trip].
  unfold Pausenkoordinaten.trip_rel. simpl. intros [<- Hd]. unfold two_trip.
  eapply result_rel_bind.
  - apply (for_each_rel (fun _ => 1) two_rel).
    + intros m s1 s2 e. apply two_edge_rel.
    + rewrite sum_list_ones. repeat split. exact Hd.
  - intros [[[[t1 b1] r1] g1'] o1] [[[[t2 b2] r2] g2'] o2]
      (_ & _ & _ & <- & Hd').
    constructor. split; [reflexivity | exact Hd'].
Qed.

Lemma main_breaks_rel single two g1 g2 :
  same_draws (total_edges (single ++ two)) g1 g2 ->
  main_breaks randint1 net trip_distance single two g1
  = main_breaks randint2 net trip_distance single two g2.
Proof.
  intros Hd. rewrite total_edges_app in Hd.
  assert (Hrel : result_rel eq
            (main_breaks randint1 net trip_distance single two g1)
            (main_breaks randint2 net trip_distance single two g2)).
  { unfold main_breaks. eapply result_rel_bind.
    - apply (for_each_rel (fun it : nat * Trip => length (edges_list it.2))
               trip_rel _ _ single_trip_rel (enumerate single)
               (total_edges two)).
      rewrite total_edges_enumerate. split; [reflexivity | exact Hd].
    - intros s1 s2 Hs. eapply result_rel_bind.
      + apply (for_each_rel (fun it : nat * Trip => length (edges_list it.2))
                 trip_rel _ _ two_trip_rel (enumerate two) 0).
        rewrite total_edges_enumerate, Nat.add_0_r. exact Hs.
      + intros [g1' o1] [g2' o2] [Ho _]. simpl in Ho. subst o2.
        constructor. reflexivity. }
  destruct Hrel as [a b -> | e]; reflexivity.
Qed.

End Draws.

(** C8. The breaks [main] returns are a function of the trips, the network
    and the jitter values drawn, one per edge walked: two runs on the same
    trips and network whose generators yield the same draws return the
    same breaks in the same order, or end with the same exception.  Two
    runs from one generator state (one seed) are the instance
    [randint1 = randint2], [g1 = g2]. *)
Theorem segmentation_deterministic {G1 G2 : Type}
    (randint1 : Z -> Z -> G1 -> Z * G1) (randint2 : Z -> Z -> G2 -> Z * G2)
    net single two g1 g2 :
  draws randint1 (total_edges (single ++ two)) g1
  = draws randint2 (total_edges (single ++ two)) g2 ->
  main randint1 net single two g1 = main randint2 net single two g2.
Proof. apply main_breaks_rel. Qed.

(** *** The theorems on sample runs *)

Lemma single_driver_alternation_witness :
  exists dict_break ev,
    main Sample.lcg Sample.net [Sample.trip_200; Sample.trip_500]
      [Sample.trip_500] 42%Z = Ok dict_break /\
    breaks_of 1 1 dict_break !! 3 = Some ev /\
    Break_Nr ev = 4%Z /\ Break_Type ev = long.
Proof.
  eexists _, _. split; [vm_compute; reflexivity|].
  split; [vm_compute; reflexivity|].
  eapply (single_driver_alternation Sample.lcg Sample.net
           [Sample.trip_200; Sample.trip_500] [Sample.trip_500] 42%Z _ 1 3);
    vm_compute; reflexivity.
Defined.

Lemma two_driver_alternation_witness :
  exists dict_break ev,
    main Sample.lcg Sample.net [Sample.trip_200; Sample.trip_500]
      [Sample.trip_500] 42%Z = Ok dict_break /\
    breaks_of 2 0 dict_break !! 3 = Some ev /\
    Break_Nr ev = 4%Z /\ Break_Type ev = long.
Proof.
  eexists _, _. split; [vm_compute; reflexivity|].
  split; [vm_compute; reflexivity|].
  eapply (two_driver_alternation Sample.lcg Sample.net
           [Sample.trip_200; Sample.trip_500] [Sample.trip_500] 42%Z _ 0 3);
    vm_compute; reflexivity.
Defined.

Lemma unknown_edge_ends_run_witness :
  exists err,
    main Sample.zero_jitter Sample.net [Sample.trip_500; Sample.trip_bad]
      [Sample.trip_200] () = Raise err /\
    missing_key Sample.net err.
Proof.
  apply (unknown_edge_ends_run Sample.zero_jitter Sample.net
           [Sample.trip_500; Sample.trip_bad] [Sample.trip_200] ()
           Sample.trip_bad).
  - apply elem_of_cons. right. apply elem_of_cons. left. reflexivity.
  - exists 4%Z. split; [|vm_compute; reflexivity].
    apply elem_of_cons. right. apply elem_of_cons. left. reflexivity.
Defined.

(** C2, as stated, fails: a trip with the unknown edge 4 ahead of a sound
    trip makes the run raise [KeyError 4]; the sound trip yields none of
    the five breaks it yields when the faulty trip is absent. *)
Lemma isolation_counterexample :
  main Sample.zero_jitter Sample.net [Sample.trip_bad; Sample.trip_500] [] ()
    = Raise (KeyError 4) /\
  (forall dict_break,
     main Sample.zero_jitter Sample.net [Sample.trip_bad; Sample.trip_500] [] ()
       <> Ok dict_break) /\
  exists dict_break,
    main Sample.zero_jitter Sample.net [Sample.trip_500] [] () = Ok dict_break /\
    length dict_break = 5.
Proof.
  assert (H : main Sample.zero_jitter Sample.net
                [Sample.trip_bad; Sample.trip_500] [] () = Raise (KeyError 4))
    by (vm_compute; reflexivity).
  split; [exact H|]. split; [intros dict_break; rewrite H; discriminate|].
  eexists. split; vm_compute; reflexivity.
Qed.

Lemma scenario_three_edges_of_200_witness :
  main Sample.zero_jitter Sample.net [Sample.trip_200] [] ()
  = Ok [mkBreak 0 1 1 short 2 200 12 51 9 7].
Proof.
  apply (scenario_three_edges_of_200 Sample.zero_jitter Sample.net
           1 2 3 12 51 9 7 ()); vm_compute; reflexivity.
Defined.

Lemma segmentation_deterministic_witness :
  draws Sample.lcg 13 42%Z = draws Sample.tape 13 Sample.recorded /\
  main Sample.lcg Sample.net [Sample.trip_200; Sample.trip_500]
    [Sample.trip_500] 42%Z
  = main Sample.tape Sample.net [Sample.trip_200; Sample.trip_500]
      [Sample.trip_500] Sample.recorded.
Proof.
  split; [vm_compute; reflexivity|].
  apply segmentation_deterministic. vm_compute. reflexivity.
Defined.

End PausenkoordinatenFacts.

(** ** Facility assignment *)

Module PausenzuordnungFacts.

Import Pausenzuordnung.

Lemma Qltb_true (a b : Q) : Qltb a b = true <-> (a < b)%Q.
Proof.
  unfold Qltb. rewrite negb_true_iff, <- not_true_iff_false, Qle_bool_iff.
  split; [apply Qnot_le_lt | apply Qlt_not_le].
Qed.

Lemma Qltb_false (a b : Q) : Qltb a b = false <-> (b <= a)%Q.
Proof. unfold Qltb. rewrite negb_false_iff. apply Qle_bool_iff. Qed.

(** *** Lists as arrays *)

Lemma list_getitem_Ok (l : list Q) (i : nat) (v : Q) :
  list_getitem l i = Ok v <-> l !! i = Some v.
Proof.
  unfold list_getitem. destruct (l !! i); split; intros H; congruence.
Qed.

Lemma list_iadd_Ok (l : list Q) (i : nat) (c : Q) (l' : list Q) :
  list_iadd l i c = Ok l' <->
  exists v, l !! i = Some v /\ l' = <[i := (v + c)%Q]> l.
Proof.
  unfold list_iadd, list_getitem. destruct (l !! i) as [v|]; simpl; split.
  - intros H. injection H as <-. eauto.
  - intros (v' & Hv & ->). injection Hv as <-. reflexivity.
  - discriminate.
  - intros (v' & Hv & _). discriminate.
Qed.

(** *** [np.where] *)

Lemma where_from_ge i mask k : k ∈ where_from i mask -> i <= k.
Proof.
  revert i. induction mask as [|b mask IH]; intros i H; simpl in H.
  - inversion H.
  - destruct b.
    + apply elem_of_cons in H as [-> | H]; [lia | apply IH in H; lia].
    + apply IH in H. lia.
Qed.

Lemma elem_of_where_from i mask k :
  k ∈ where_from i mask <-> exists j, k = i + j /\ mask !! j = Some true.
Proof.
  revert i. induction mask as [|b mask IH]; intros i; simpl.
  - split; [intros H; inversion H | intros (j & _ & H); discriminate].
  - assert (Hrec : k ∈ where_from (S i) mask <->
                   exists j, k = i + S j /\ mask !! j = Some true).
    { rewrite IH. split; intros (j & -> & H); exists j; split; (lia || assumption). }
    destruct b.
    + rewrite elem_of_cons, Hrec. split.
      * intros [-> | (j & -> & H)]; [exists 0 | exists (S j)];
          split; (lia || assumption || reflexivity).
      * intros ([|j] & -> & H); [left; lia | right; eauto].
    + rewrite Hrec. split.
      * intros (j & -> & H). exists (S j). split; [lia | assumption].
      * intros ([|j] & -> & H); [discriminate | eauto].
Qed.

(** The positions come out in ascending order. *)
Lemma where_from_split i mask : forall pre j post,
  where_from i mask = pre ++ j :: post ->
  (forall k, k ∈ pre -> k < j) /\ (forall k, k ∈ post -> j < k).
Proof.
  revert i. induction mask as [|b mask IH]; intros i pre j post H; simpl in H.
  - destruct pre; discriminate.
  - destruct b; [|eapply IH, H].
    destruct pre as [|k0 pre]; simpl in H; injection H as <- H.
    + split; [intros k Hk; inversion Hk|].
      intros k Hk. rewrite <- H in Hk. apply where_from_ge in Hk. lia.
    + destruct (IH _ _ _ _ H) as [Hpre Hpost]. split; [|exact Hpost].
      intros k Hk. apply elem_of_cons in Hk as [-> | Hk]; [|auto].
      assert (Hj : j ∈ where_from (S i) mask).
      { rewrite H. apply elem_of_app. right. apply elem_of_cons. left. reflexivity. }
      apply where_from_ge in Hj. lia.
Qed.

(** *** [idxmin] *)

Lemma idxmin_from_spec (l : list Q) : forall (i best : nat) (bv : Q),
  (idxmin_from i best bv l = best /\ forall x, x ∈ l -> (bv <= x)%Q) \/
  (exists n m, idxmin_from i best bv l = i + n /\ l !! n = Some m /\
     (m < bv)%Q /\
     (forall k x, l !! k = Some x -> (m <= x)%Q) /\
     (forall k x, k < n -> l !! k = Some x -> (m < x)%Q)).
Proof.
  induction l as [|d l IH]; intros i best bv; simpl.
  - left. split; [reflexivity | intros x Hx; inversion Hx].
  - destruct (Qltb d bv) eqn:Hcmp.
    + apply Qltb_true in Hcmp. right.
      destruct (IH (S i) i d) as [[-> Hall] | (n & m & -> & Hn & Hlt & Hle & Hstrict)].
      * exists 0, d. split; [lia|]. split; [reflexivity|]. split; [assumption|].
        split; [|intros k x Hk; lia].
        intros [|k] x Hx; simpl in Hx.
        -- injection Hx as <-. apply Qle_refl.
        -- apply Hall. eapply list_elem_of_lookup_2, Hx.
      * exists (S n), m. split; [lia|]. split; [assumption|].
        split; [eapply Qlt_trans; eassumption|]. split.
        -- intros [|k] x Hx; simpl in Hx; [|eauto].
           injection Hx as <-. apply Qlt_le_weak, Hlt.
        -- intros [|k] x Hk Hx; simpl in Hx.
           ++ injection Hx as <-. assumption.
           ++ eapply Hstrict; [|eassumption]. lia.
    + apply Qltb_false in Hcmp.
      destruct (IH (S i) best bv) as [[-> Hall] | (n & m & -> & Hn & Hlt & Hle & Hstrict)].
      * left. split; [reflexivity|]. intros x Hx.
        apply elem_of_cons in Hx as [-> | Hx]; [assumption | auto].
      * right. exists (S n), m. split; [lia|]. split; [assumption|].
        split; [assumption|]. split.
        -- intros [|k] x Hx; simpl in Hx; [|eauto].
           injection Hx as <-. apply Qlt_le_weak. eapply Qlt_le_trans; eassumption.
        -- intros [|k] x Hk Hx; simpl in Hx.
           ++ injection Hx as <-. eapply Qlt_le_trans; eassumption.
           ++ eapply Hstrict; [|eassumption]. lia.
Qed.

(** [idxmin] of a non-empty series returns the first position of its
    smallest entry. *)
Lemma idxmin_spec (l : list Q) :
  l <> [] ->
  exists j m, idxmin l = Ok j /\ l !! j = Some m /\
    (forall k x, l !! k = Some x -> (m <= x)%Q) /\
    (forall k x, k < j -> l !! k = Some x -> (m < x)%Q).
Proof.
  destruct l as [|d l]; [congruence|]. intros _. unfold idxmin.
  destruct (idxmin_from_spec l 1 0 d)
    as [[-> Hall] | (n & m & -> & Hn & Hlt & Hle & Hstrict)].
  - exists 0, d. split; [reflexivity|]. split; [reflexivity|]. split.
    + intros [|k] x Hx; simpl in Hx.
      * injection Hx as <-. apply Qle_refl.
      * apply Hall. eapply list_elem_of_lookup_2, Hx.
    + intros k x Hk. lia.
  - exists (S n), m. split; [reflexivity|]. split; [assumption|]. split.
    + intros [|k] x Hx; simpl in Hx; [|eauto].
      injection Hx as <-. apply Qlt_le_weak, Hlt.
    + intros [|k] x Hk Hx; simpl in Hx.
      * injection Hx as <-. assumption.
      * eapply Hstrict; [|eassumption]. lia.
Qed.

(** *** The selection among several containing buffers *)

Lemma select_kreis_step (results : list Q) m s (k : nat) (w : Q) :
  results !! k = Some w ->
  select_kreis results (m, s) k
  = Ok (if lt_float w m then (Fin w, Some k) else (m, s)).
Proof.
  intros H. unfold select_kreis. apply list_getitem_Ok in H. rewrite H. simpl.
  destruct (lt_float w m); reflexivity.
Qed.

Lemma select_kreis_fin (results : list Q) (l : list nat) :
  forall (v : Q) (j : nat),
  (forall k, k ∈ l -> k < length results) ->
  exists v' j',
    for_each (select_kreis results) (Fin v, Some j) l = Ok (Fin v', Some j') /\
    (v' <= v)%Q /\
    (forall k w, k ∈ l -> results !! k = Some w -> (v' <= w)%Q) /\
    ((j' = j /\ v' = v) \/
     (exists pre post, l = pre ++ j' :: post /\ results !! j' = Some v' /\
        (v' < v)%Q /\
        forall k w, k ∈ pre -> results !! k = Some w -> (v' < w)%Q)).
Proof.
  induction l as [|k0 l IH]; intros v j Hrange; cbn [for_each].
  - exists v, j. split; [reflexivity|]. split; [apply Qle_refl|].
    split; [intros k w Hk; inversion Hk | left; split; reflexivity].
  - assert (Hk0 : k0 < length results)
      by (apply Hrange, elem_of_cons; left; reflexivity).
    apply lookup_lt_is_Some in Hk0 as [w0 Hw0].
    assert (Hrange' : forall k, k ∈ l -> k < length results)
      by (intros k Hk; apply Hrange, elem_of_cons; right; exact Hk).
    rewrite (select_kreis_step _ _ _ _ _ Hw0). cbn [mbind Result_bind lt_float].
    destruct (Qltb w0 v) eqn:Hcmp.
    + apply Qltb_true in Hcmp.
      destruct (IH w0 k0 Hrange') as (v' & j' & -> & Hle & Hall & Hcase).
      exists v', j'. split; [reflexivity|].
      split; [eapply Qle_trans; [exact Hle | apply Qlt_le_weak, Hcmp]|]. split.
      * intros k w Hk Hw. apply elem_of_cons in Hk as [-> | Hk]; [|eauto].
        rewrite Hw0 in Hw. injection Hw as <-. exact Hle.
      * right.
        destruct Hcase as [[-> ->] | (pre & post & -> & Hj' & Hlt & Hpre)].
        -- exists [], l. split; [reflexivity|]. split; [assumption|].
           split; [assumption|]. intros k w Hk. inversion Hk.
        -- exists (k0 :: pre), post. split; [reflexivity|].
           split; [assumption|].
           split; [eapply Qlt_trans; eassumption|]. intros k w Hk Hw.
           apply elem_of_cons in Hk as [-> | Hk]; [|eauto].
           rewrite Hw0 in Hw. injection Hw as <-. exact Hlt.
    + apply Qltb_false in Hcmp.
      destruct (IH v j Hrange') as (v' & j' & -> & Hle & Hall & Hcase).
      exists v', j'. split; [reflexivity|]. split; [assumption|]. split.
      * intros k w Hk Hw. apply elem_of_cons in Hk as [-> | Hk]; [|eauto].
        rewrite Hw0 in Hw. injection Hw as <-.
        eapply Qle_trans; eassumption.
      * destruct Hcase as [[-> ->] | (pre & post & -> & Hj' & Hlt & Hpre)];
          [left; split; reflexivity | right].
        exists (k0 :: pre), post. split; [reflexivity|].
        split; [assumption|]. split; [assumption|]. intros k w Hk Hw.
        apply elem_of_cons in Hk as [-> | Hk]; [|eauto].
        rewrite Hw0 in Hw. injection Hw as <-.
        eapply Qlt_le_trans; eassumption.
Qed.

(** From [min_ratio_value = inf] and [selected_kreis = None], the loop
    over a non-empty list of valid positions ends with a position
    selected: the first one holding the smallest running total. *)
Lemma select_kreis_inf (results : list Q) (l : list nat) :
  l <> [] ->
  (forall k, k ∈ l -> k < length results) ->
  exists v j pre post,
    for_each (select_kreis results) (Inf, None) l = Ok (Fin v, Some j) /\
    l = pre ++ j :: post /\ results !! j = Some v /\
    (forall k w, k ∈ l -> results !! k = Some w -> (v <= w)%Q) /\
    (forall k w, k ∈ pre -> results !! k = Some w -> (v < w)%Q).
Proof.
  destruct l as [|k0 l]; [congruence|]. intros _ Hrange. cbn [for_each].
  assert (Hk0 : k0 < length results)
    by (apply Hrange, elem_of_cons; left; reflexivity).
  apply lookup_lt_is_Some in Hk0 as [w0 Hw0].
  assert (Hrange' : forall k, k ∈ l -> k < length results)
    by (intros k Hk; apply Hrange, elem_of_cons; right; exact Hk).
  rewrite (select_kreis_step _ _ _ _ _ Hw0). cbn [mbind Result_bind lt_float].
  destruct (select_kreis_fin results l w0 k0 Hrange')
    as (v & j & -> & Hle & Hall & Hcase).
  destruct Hcase as [[-> ->] | (pre & post & -> & Hj & Hlt & Hpre)].
  - exists w0, k0, [], l. split; [reflexivity|]. split; [reflexivity|].
    split; [assumption|]. split; [|intros k w Hk; inversion Hk].
    intros k w Hk Hw. apply elem_of_cons in Hk as [-> | Hk]; [|eauto].
    rewrite Hw0 in Hw. injection Hw as <-. apply Qle_refl.
  - exists v, j, (k0 :: pre), post. split; [reflexivity|].
    split; [reflexivity|]. split; [assumption|]. split.
    + intros k w Hk Hw. apply elem_of_cons in Hk as [-> | Hk]; [|eauto].
      rewrite Hw0 in Hw. injection Hw as <-. assumption.
    + intros k w Hk Hw. apply elem_of_cons in Hk as [-> | Hk]; [|eauto].
      rewrite Hw0 in Hw. injection Hw as <-. assumption.
Qed.

Section AssignmentFacts.

Context {Geom Point : Type}.
Variable contains : Geom -> Point -> bool.
Variable distance : Geom -> Point -> Q.

Local Abbreviation contained_indices := (contained_indices contains).
Local Abbreviation assign_break := (assign_break contains distance).

Lemma elem_of_contained_indices (kreis : list Geom) (p : Point) (k : nat) :
  k ∈ contained_indices kreis p <->
  exists g, kreis !! k = Some g /\ contains g p = true.
Proof.
  unfold Pausenzuordnung.contained_indices, np_where.
  rewrite elem_of_where_from. split.
  - intros (j & -> & H). simpl in H. rewrite list_lookup_fmap in H.
    destruct (kreis !! j) as [g|] eqn:Hg; [|discriminate].
    injection H as H. eauto.
  - intros (g & Hg & Hc). exists k. split; [reflexivity|].
    rewrite list_lookup_fmap, Hg. simpl. congruence.
Qed.

Lemma contained_indices_lt (kreis : list Geom) (p : Point) (k : nat) :
  k ∈ contained_indices kreis p -> k < length kreis.
Proof.
  intros H. apply elem_of_contained_indices in H as (g & Hg & _).
  eapply lookup_lt_Some, Hg.
Qed.

(** Whatever the branch, a break that is assigned adds its count to
    exactly one entry of [results_breaks]. *)
Lemma assign_break_Ok (kreis : list Geom) (results : list Q)
    (row : BreakRow (Point := Point)) (results' : list Q) :
  assign_break kreis results row = Ok results' ->
  exists j v, results !! j = Some v /\
    results' = <[j := (v + Break_Number row)%Q]> results.
Proof.
  unfold Pausenzuordnung.assign_break. cbv zeta.
  destruct (contained_indices kreis (geometry row)) as [|k0 [|k1 rest]].
  - intros H. apply bind_Ok in H as (j & _ & H).
    apply list_iadd_Ok in H as (v & Hv & ->). eauto.
  - intros H. apply list_iadd_Ok in H as (v & Hv & ->). eauto.
  - intros H. apply bind_Ok in H as ([m [j|]] & _ & H); [|discriminate].
    apply list_iadd_Ok in H as (v & Hv & ->). eauto.
Qed.


(** C5. A break that lies in two or more buffers adds its count to the
    containing facility with the smallest running total, the earliest
    such position on a tie; the loop goes on with the updated totals. *)
Theorem greedy_balancing (kreis : list Geom) (results : list Q)
    (row : BreakRow (Point := Point)) :
  length results = length kreis ->
  2 <= length (contained_indices kreis (geometry row)) ->
  exists j v,
    j ∈ contained_indices kreis (geometry row) /\
    results !! j = Some v /\
    (forall k w, k ∈ contained_indices kreis (geometry row) ->
       results !! k = Some w -> (v <= w)%Q) /\
    (forall k w, k ∈ contained_indices kreis (geometry row) -> k < j ->
       results !! k = Some w -> (v < w)%Q) /\
    assign_break kreis results row
      = Ok (<[j := (v + Break_Number row)%Q]> results) /\
    forall rest,
      for_each (assign_break kreis) results (row :: rest)
      = for_each (assign_break kreis)
          (<[j := (v + Break_Number row)%Q]> results) rest.
Proof.
  intros Hlen Htwo.
  destruct (select_kreis_inf results (contained_indices kreis (geometry row)))
    as (v & j & pre & post & Hsel & Hsplit & Hj & Hmin & Hpre).
  { intros E. rewrite E in Htwo. simpl in Htwo. lia. }
  { intros k Hk. rewrite Hlen. eapply contained_indices_lt, Hk. }
  assert (Hstep : assign_break kreis results row
                  = Ok (<[j := (v + Break_Number row)%Q]> results)).
  { unfold Pausenzuordnung.assign_break. cbv zeta.
    destruct (contained_indices kreis (geometry row)) as [|k0 [|k1 rest]] eqn:E;
      [simpl in Htwo; lia | simpl in Htwo; lia |].
    rewrite Hsel. cbn [mbind Result_bind list_iadd_opt].
    apply list_iadd_Ok. eauto. }
  exists j, v. split.
  { rewrite Hsplit. apply elem_of_app. right. apply elem_of_cons. left. reflexivity. }
  split; [assumption|]. split; [assumption|]. split.
  - intros k w Hk Hlt Hw. apply (Hpre k w); [|assumption].
    pose proof Hsplit as Hsorted.
    unfold Pausenzuordnung.contained_indices, np_where in Hsorted.
    destruct (where_from_split _ _ _ _ _ Hsorted) as [_ Hpost].
    rewrite Hsplit in Hk. apply elem_of_app in Hk as [Hk | Hk]; [assumption|].
    apply elem_of_cons in Hk as [-> | Hk]; [lia | apply Hpost in Hk; lia].
  - split; [assumption|]. intros rest. cbn [for_each]. rewrite Hstep.
    reflexivity.
Qed.

(** C7 (amended). With no facility at all, a pass over at least one
    break raises [ValueError] at the first break and returns no counts;
    a pass over no break returns the empty list of counts. *)
Theorem empty_facility_list {Standort : Type}
    (breaks : list (BreakRow (Point := Point))) :
  assign_breaks_to_points contains distance breaks (@nil Standort) []
  = match breaks with
    | [] => Ok []
    | _ :: _ => Raise ValueError
    end.
Proof. destruct breaks as [|row breaks]; reflexivity. Qed.

(** C10. A break that lies in at least one buffer is always assigned:
    the step returns, with the count added to exactly one entry, at a
    containing position.  The selection loop, started from
    [min_ratio_value = inf] and [selected_kreis = None], selects the
    first candidate at once and ends with a position selected, so the
    update never meets [None]. *)
Theorem selection_total (kreis : list Geom) (results : list Q)
    (row : BreakRow (Point := Point)) :
  length results = length kreis ->
  contained_indices kreis (geometry row) <> [] ->
  (exists j v,
     j ∈ contained_indices kreis (geometry row) /\
     results !! j = Some v /\
     assign_break kreis results row
     = Ok (<[j := (v + Break_Number row)%Q]> results)) /\
  (forall k0 rest, contained_indices kreis (geometry row) = k0 :: rest ->
     exists w0, results !! k0 = Some w0 /\
       select_kreis results (Inf, None) k0 = Ok (Fin w0, Some k0)) /\
  (exists v j,
     for_each (select_kreis results) (Inf, None)
       (contained_indices kreis (geometry row)) = Ok (Fin v, Some j) /\
     j ∈ contained_indices kreis (geometry row)).
Proof.
  intros Hlen Hne.
  assert (Hrange : forall k, k ∈ contained_indices kreis (geometry row) ->
                             k < length results)
    by (intros k Hk; rewrite Hlen; eapply contained_indices_lt, Hk).
  destruct (select_kreis_inf results _ Hne Hrange)
    as (v & j & pre & post & Hsel & Hsplit & Hj & _ & _).
  assert (Hjin : j ∈ contained_indices kreis (geometry row)).
  { rewrite Hsplit. apply elem_of_app. right. apply elem_of_cons. left. reflexivity. }
  split; [|split].
  - unfold Pausenzuordnung.assign_break. cbv zeta.
    destruct (contained_indices kreis (geometry row)) as [|k0 [|k1 rest]] eqn:E;
      [congruence | |].
    + assert (Hk0 : k0 < length results)
        by (apply Hrange, elem_of_cons; left; reflexivity).
      apply lookup_lt_is_Some in Hk0 as [w0 Hw0]. exists k0, w0.
      split; [apply elem_of_cons; left; reflexivity|]. split; [assumption|].
      apply list_iadd_Ok. eauto.
    + exists j, v. split; [assumption|]. split; [assumption|].
      rewrite Hsel. cbn [mbind Result_bind list_iadd_opt].
      apply list_iadd_Ok. eauto.
  - intros k0 rest E.
    assert (Hk0 : k0 < length results)
      by (apply Hrange; rewrite E; apply elem_of_cons; left; reflexivity).
    apply lookup_lt_is_Some in Hk0 as [w0 Hw0]. exists w0.
    split; [assumption|]. rewrite (select_kreis_step _ _ _ _ _ Hw0).
    reflexivity.
  - exists v, j. split; assumption.
Qed.

End AssignmentFacts.

(** *** The theorems on sample passes *)

(** Facility A at 5 and facility B at 2, both containing the break: the
    count goes to B. *)
Example greedy_balancing_5_2 :
  assign_break Line.contains Line.distance Sample.kreise Sample.totals
    Sample.row_both = Ok [5%Q; (2 + 4)%Q].
Proof. vm_compute. reflexivity. Qed.

Lemma greedy_balancing_witness :
  length Sample.totals = length Sample.kreise /\
  2 <= length (contained_indices Line.contains Sample.kreise 5%Q) /\
  exists j v,
    Sample.totals !! j = Some v /\
    (forall k w, k ∈ contained_indices Line.contains Sample.kreise 5%Q ->
       Sample.totals !! k = Some w -> (v <= w)%Q) /\
    assign_break Line.contains Line.distance Sample.kreise Sample.totals
      Sample.row_both = Ok (<[j := (v + 4)%Q]> Sample.totals).
Proof.
  split; [reflexivity|]. split; [vm_compute; lia|].
  destruct (greedy_balancing Line.contains Line.distance Sample.kreise
              Sample.totals Sample.row_both)
    as (j & v & _ & Hv & Hmin & _ & Hstep & _);
    [reflexivity | vm_compute; lia |].
  exists j, v. split; [exact Hv|]. split; [exact Hmin | exact Hstep].
Defined.

(** C7, as stated, fails: with no facility and no break the pass is not
    ended by any exception; it returns the empty list of counts. *)
Lemma empty_facility_list_counterexample :
  assign_breaks_to_points Line.contains Line.distance
    (@nil (BreakRow (Point := Q))) (@nil unit) [] = Ok [] /\
  forall e,
    assign_breaks_to_points Line.contains Line.distance
      (@nil (BreakRow (Point := Q))) (@nil unit) [] <> Raise e.
Proof. split; [reflexivity | discriminate]. Qed.

Lemma selection_total_witness :
  length Sample.totals = length Sample.kreise /\
  contained_indices Line.contains Sample.kreise 5%Q <> [] /\
  (exists j v,
     Sample.totals !! j = Some v /\
     assign_break Line.contains Line.distance Sample.kreise Sample.totals
       Sample.row_both = Ok (<[j := (v + 4)%Q]> Sample.totals)) /\
  (exists v j,
     for_each (select_kreis Sample.totals) (Inf, None)
       (contained_indices Line.contains Sample.kreise 5%Q)
     = Ok (Fin v, Some j)).
Proof.
  split; [reflexivity|]. split; [vm_compute; discriminate|].
  destruct (selection_total Line.contains Line.distance Sample.kreise
              Sample.totals Sample.row_both)
    as ((j & v & _ & Hv & Hstep) & _ & (v' & j' & Hsel & _));
    [reflexivity | vm_compute; discriminate |].
  split; [exists j, v; split; [exact Hv | exact Hstep]|].
  exists v', j'. exact Hsel.
Defined.

End PausenzuordnungFacts.

(** * Further properties *)

(** ** Break segmentation: what a run appends for each trip *)

Module SegmentsFacts.

Import Pausenkoordinaten PausenkoordinatenFacts Segments.

(** A loop over enumerated trips: each trip's rows form one block of the
    output, found again by [breaks_of]. *)
Lemma trips_blocks {G : Type}
    (step : G * list Break -> nat * Trip -> Result (G * list Break))
    (driver : Z) (P : nat -> Trip -> list Break -> Prop) :
  (forall g out index trip g' out',
     step (g, out) (index, trip) = Ok (g', out') ->
     exists evs, out' = out ++ evs /\
       Forall (fun ev => Driver ev = driver /\ Trip_ID ev = index) evs /\
       P index trip evs) ->
  forall trips start g out g' out',
    for_each step (g, out) (zip (seq start (length trips)) trips)
      = Ok (g', out') ->
    exists evs, out' = out ++ evs /\
      Forall (fun ev => Driver ev = driver /\
                start <= Trip_ID ev < start + length trips) evs /\
      forall k trip, trips !! k = Some trip ->
        P (start + k) trip (breaks_of driver (start + k) evs).
Proof.
  intros Hstep. induction trips as [|trip trips IH];
    intros start g out g' out' H; simpl in H.
  - injection H as <- <-. exists []. rewrite app_nil_r.
    split; [reflexivity | split; [constructor|]].
    intros k trip Hk. discriminate.
  - apply bind_Ok in H as ([g1 out1] & H1 & H).
    apply Hstep in H1 as (evs1 & -> & Hall1 & HP1).
    apply IH in H as (evs2 & -> & Hall2 & HP2).
    exists (evs1 ++ evs2). rewrite <- app_assoc. split; [reflexivity|]. split.
    + apply Forall_app. split.
      * eapply Forall_impl; [exact Hall1|]. simpl. intros ev [? ?].
        split; [assumption | lia].
      * eapply Forall_impl; [exact Hall2|]. simpl. intros ev [? ?].
        split; [assumption | lia].
    + intros [|k] trip' Hk; simpl in Hk; rewrite breaks_of_app.
      * injection Hk as <-. rewrite Nat.add_0_r.
        rewrite (breaks_of_all _ _ evs1) by assumption.
        rewrite (breaks_of_none _ _ evs2), app_nil_r; [assumption|].
        eapply Forall_impl; [exact Hall2|]. simpl. intros ev [? ?] [? ?]. lia.
      * replace (start + S k) with (S start + k) by lia.
        rewrite (breaks_of_none _ _ evs1); [apply HP2, Hk|].
        eapply Forall_impl; [exact Hall1|]. simpl. intros ev [? ?] [? ?]. lia.
Qed.

Section Rows.

Context {G : Type}.
Variable randint : Z -> Z -> G -> Z * G.
Variable net : Network.
Variable trip_distance : Q.

Lemma single_edge_row index traffic t b g out e t' b' g' out' :
  single_edge randint net trip_distance index traffic (t, b, g, out) e
    = Ok (t', b', g', out') ->
  out' = out \/
  exists ev, out' = out ++ [ev] /\ Trip_ID ev = index /\ Driver ev = 1%Z /\
    Edge ev = e /\ Break_Number ev = traffic /\ row_matches_network net ev.
Proof.
  unfold single_edge. intros H.
  apply bind_Ok in H as (len & Hlen & H).
  destruct (randint (-50) 50 g) as [jitter g1].
  destruct (Qgtb _ _).
  - apply bind_Ok in H as (bl & Hbl & H). apply bind_Ok in H as (nd & Hnd & H).
    apply bind_Ok in H as (la & Hla & H). apply bind_Ok in H as (lo & Hlo & H).
    apply getitem_Ok in Hbl, Hnd, Hla, Hlo.
    injection H as <- <- <- <-. right. eexists.
    split; [reflexivity|]. repeat split; assumption.
  - injection H as <- <- <- <-. left. reflexivity.
Qed.

Lemma two_edge_row index traffic t b r g out e t' b' r' g' out' :
  two_edge randint net trip_distance index traffic (t, b, r, g, out) e
    = Ok (t', b', r', g', out') ->
  out' = out \/
  exists ev, out' = out ++ [ev] /\ Trip_ID ev = index /\ Driver ev = 2%Z /\
    Edge ev = e /\ Break_Number ev = traffic /\ row_matches_network net ev.
Proof.
  unfold two_edge. intros H.
  apply bind_Ok in H as (len & Hlen & H).
  destruct (randint (-50) 50 g) as [jitter g1].
  destruct (Qgtb _ _).
  - apply bind_Ok in H as (bl & Hbl & H). apply bind_Ok in H as (nd & Hnd & H).
    apply bind_Ok in H as (la & Hla & H). apply bind_Ok in H as (lo & Hlo & H).
    apply getitem_Ok in Hbl, Hnd, Hla, Hlo.
    right. destruct (_ <=? _)%Z; injection H as <- <- <- <- <-; eexists;
      (split; [reflexivity|]); repeat split; assumption.
  - injection H as <- <- <- <- <-. left. reflexivity.
Qed.

Lemma loop_rows_nil driver index traffic es :
  loop_rows net driver index traffic es [].
Proof. split; [simpl; lia | constructor]. Qed.

Lemma loop_rows_skip driver index traffic e es evs :
  loop_rows net driver index traffic es evs ->
  loop_rows net driver index traffic (e :: es) evs.
Proof.
  intros [Hlen Hall]. split; [simpl; lia|].
  eapply Forall_impl; [exact Hall|]. simpl.
  intros ev (? & ? & ? & ? & ?). split; [assumption|]. split; [assumption|].
  split; [apply elem_of_cons; right; assumption|]. split; assumption.
Qed.

Lemma loop_rows_cons driver index traffic e es ev evs :
  Trip_ID ev = index -> Driver ev = driver -> Edge ev = e ->
  Break_Number ev = traffic -> row_matches_network net ev ->
  loop_rows net driver index traffic es evs ->
  loop_rows net driver index traffic (e :: es) (ev :: evs).
Proof.
  intros H1 H2 H3 H4 H5 Hrows.
  destruct (loop_rows_skip driver index traffic e es evs Hrows) as [Hlen Hall].
  destruct Hrows as [Hlen' _]. split; [simpl; lia|].
  constructor; [|exact Hall]. split; [assumption|]. split; [assumption|].
  split; [apply elem_of_cons; left; assumption|]. split; assumption.
Qed.

Lemma single_loop_rows index traffic es : forall t b g out t' b' g' out',
  for_each (single_edge randint net trip_distance index traffic)
    (t, b, g, out) es = Ok (t', b', g', out') ->
  exists evs, out' = out ++ evs /\ loop_rows net 1 index traffic es evs.
Proof.
  induction es as [|e es IH]; intros t b g out t' b' g' out' H; simpl in H.
  - injection H as <- <- <- <-. exists []. rewrite app_nil_r.
    split; [reflexivity | apply loop_rows_nil].
  - apply bind_Ok in H as ([[[t1 b1] g1] out1] & Hstep & H).
    apply single_edge_row in Hstep
      as [-> | (ev & -> & H1 & H2 & H3 & H4 & H5)];
      apply IH in H as (evs & -> & Hrows).
    + exists evs. split; [reflexivity | apply loop_rows_skip, Hrows].
    + exists (ev :: evs). rewrite <- app_assoc.
      split; [reflexivity | apply loop_rows_cons; assumption].
Qed.

Lemma two_loop_rows index traffic es : forall t b r g out t' b' r' g' out',
  for_each (two_edge randint net trip_distance index traffic)
    (t, b, r, g, out) es = Ok (t', b', r', g', out') ->
  exists evs, out' = out ++ evs /\ loop_rows net 2 index traffic es evs.
Proof.
  induction es as [|e es IH]; intros t b r g out t' b' r' g' out' H;
    simpl in H.
  - injection H as <- <- <- <- <-. exists []. rewrite app_nil_r.
    split; [reflexivity | apply loop_rows_nil].
  - apply bind_Ok in H as ([[[[t1 b1] r1] g1] out1] & Hstep & H).
    apply two_edge_row in Hstep
      as [-> | (ev & -> & H1 & H2 & H3 & H4 & H5)];
      apply IH in H as (evs & -> & Hrows).
    + exists evs. split; [reflexivity | apply loop_rows_skip, Hrows].
    + exists (ev :: evs). rewrite <- app_assoc.
      split; [reflexivity | apply loop_rows_cons; assumption].
Qed.

Lemma loop_rows_block driver index trip evs :
  loop_rows net driver index (trip_traffic trip) (edges_list trip) evs ->
  Forall (fun ev => Driver ev = driver /\ Trip_ID ev = index) evs /\
  trip_block net trip evs.
Proof.
  intros [Hlen Hall]. split; [|split; [|exact Hlen]];
    (eapply Forall_impl; [exact Hall|]); simpl;
    intros ev (? & ? & ? & ? & ?).
  - split; assumption.
  - split; [assumption | split; assumption].
Qed.

Lemma single_trip_block g out index trip g' out' :
  single_trip randint net trip_distance (g, out) (index, trip)
    = Ok (g', out') ->
  exists evs, out' = out ++ evs /\
    Forall (fun ev => Driver ev = 1%Z /\ Trip_ID ev = index) evs /\
    trip_block net trip evs.
Proof.
  unfold single_trip. intros H.
  apply bind_Ok in H as ([[[t1 b1] g1] out1] & Hloop & H).
  injection H as <- <-.
  apply single_loop_rows in Hloop as (evs & -> & Hrows).
  exists evs. split; [reflexivity | apply loop_rows_block, Hrows].
Qed.

Lemma two_trip_block g out index trip g' out' :
  two_trip randint net trip_distance (g, out) (index, trip)
    = Ok (g', out') ->
  exists evs, out' = out ++ evs /\
    Forall (fun ev => Driver ev = 2%Z /\ Trip_ID ev = index) evs /\
    trip_block net trip evs.
Proof.
  unfold two_trip. intros H.
  apply bind_Ok in H as ([[[[t1 b1] r1] g1] out1] & Hloop & H).
  injection H as <- <-.
  apply two_loop_rows in Hloop as (evs & -> & Hrows).
  exists evs. split; [reflexivity | apply loop_rows_block, Hrows].
Qed.

(** The output of a run, block by block, for any property [P1] of the
    blocks of the one-driver loop and [P2] of the two-driver loop. *)
Lemma main_breaks_blocks (P1 P2 : nat -> Trip -> list Break -> Prop) :
  (forall g out index trip g' out',
     single_trip randint net trip_distance (g, out) (index, trip)
       = Ok (g', out') ->
     exists evs, out' = out ++ evs /\
       Forall (fun ev => Driver ev = 1%Z /\ Trip_ID ev = index) evs /\
       P1 index trip evs) ->
  (forall g out index trip g' out',
     two_trip randint net trip_distance (g, out) (index, trip)
       = Ok (g', out') ->
     exists evs, out' = out ++ evs /\
       Forall (fun ev => Driver ev = 2%Z /\ Trip_ID ev = index) evs /\
       P2 index trip evs) ->
  forall single two g dict_break,
    main_breaks randint net trip_distance single two g = Ok dict_break ->
    Forall (fun ev => (Driver ev = 1%Z /\ Trip_ID ev < length single) \/
                      (Driver ev = 2%Z /\ Trip_ID ev < length two))
      dict_break /\
    (forall k trip, single !! k = Some trip ->
       P1 k trip (breaks_of 1 k dict_break)) /\
    (forall k trip, two !! k = Some trip ->
       P2 k trip (breaks_of 2 k dict_break)).
Proof.
  intros Hs1 Hs2 single two g dict_break H. unfold main_breaks, enumerate in H.
  apply bind_Ok in H as ([g1 out1] & H1 & H).
  apply bind_Ok in H as ([g2 out2] & H2 & H). injection H as <-.
  apply (trips_blocks _ 1%Z P1 Hs1) in H1 as (evs1 & -> & Hall1 & HP1).
  apply (trips_blocks _ 2%Z P2 Hs2) in H2 as (evs2 & -> & Hall2 & HP2).
  simpl. split; [|split].
  - apply Forall_app. split.
    + eapply Forall_impl; [exact Hall1|]. simpl. intros ev [? ?]. left.
      split; [assumption | lia].
    + eapply Forall_impl; [exact Hall2|]. simpl. intros ev [? ?]. right.
      split; [assumption | lia].
  - intros k trip Hk. rewrite breaks_of_app.
    rewrite (breaks_of_none 1 _ evs2), app_nil_r; [apply (HP1 k trip Hk)|].
    eapply Forall_impl; [exact Hall2|]. simpl. intros ev [? ?] [? ?]. lia.
  - intros k trip Hk. rewrite breaks_of_app.
    rewrite (breaks_of_none 2 _ evs1); [apply (HP2 k trip Hk)|].
    eapply Forall_impl; [exact Hall1|]. simpl. intros ev [? ?] [? ?]. lia.
Qed.

End Rows.


(** Every row of the output belongs to a trip of the batch and agrees
    with that trip and with the network. *)
Lemma main_breaks_row {G : Type} (randint : Z -> Z -> G -> Z * G) net
    trip_distance single two g dict_break ev :
  main_breaks randint net trip_distance single two g = Ok dict_break ->
  ev ∈ dict_break ->
  exists trip,
    ((Driver ev = 1%Z /\ single !! Trip_ID ev = Some trip) \/
     (Driver ev = 2%Z /\ two !! Trip_ID ev = Some trip)) /\
    row_matches_network net ev /\ row_matches_trip trip ev.
Proof.
  intros Hmain Hin.
  destruct (main_breaks_blocks randint net trip_distance
              (fun _ trip evs => trip_block net trip evs)
              (fun _ trip evs => trip_block net trip evs)
              (single_trip_block randint net trip_distance)
              (two_trip_block randint net trip_distance)
              single two g dict_break Hmain) as (Hall & H1 & H2).
  rewrite Forall_forall in Hall.
  destruct (Hall ev Hin) as [[Hd Hlt] | [Hd Hlt]];
    apply lookup_lt_is_Some in Hlt as [trip Htrip]; exists trip.
  - destruct (H1 _ _ Htrip) as [Hrows _]. rewrite Forall_forall in Hrows.
    destruct (Hrows ev) as [Hnet Htr].
    { apply list_elem_of_filter. split; [split; [assumption | reflexivity] | assumption]. }
    split; [left; split; assumption | split; assumption].
  - destruct (H2 _ _ Htrip) as [Hrows _]. rewrite Forall_forall in Hrows.
    destruct (Hrows ev) as [Hnet Htr].
    { apply list_elem_of_filter. split; [split; [assumption | reflexivity] | assumption]. }
    split; [right; split; assumption | split; assumption].
Qed.

(** X1. With the length, end node and node coordinates of every edge of
    every trip on file, [main] raises nothing and returns its rows. *)
Theorem known_edges_run_returns {G : Type} (randint : Z -> Z -> G -> Z * G)
    net single two g :
  Forall (known_trip net) (single ++ two) ->
  exists dict_break, main randint net single two g = Ok dict_break.
Proof. apply main_breaks_known. Qed.

(** X2. In every row [main] returns, [Edge_length] and [Node_B] are what
    the edge dictionaries hold for [Edge], and [Latitude_B] and
    [Longitude_B] are what the node dictionaries hold for [Node_B]. *)
Theorem rows_match_network {G : Type} (randint : Z -> Z -> G -> Z * G)
    net single two g dict_break :
  main randint net single two g = Ok dict_break ->
  Forall (row_matches_network net) dict_break.
Proof.
  intros Hmain. apply Forall_forall. intros ev Hin.
  destruct (main_breaks_row _ _ _ _ _ _ _ _ Hmain Hin) as (trip & _ & Hnet & _).
  exact Hnet.
Qed.

(** X3. Every row [main] returns comes from a trip of the batch: its
    [Driver] is 1 or 2, its [Trip_ID] is the position of a trip in the
    list of that driver mode, its [Edge] lies on that trip's path and its
    [Break_Number] is that trip's truck count. *)
Theorem rows_match_trips {G : Type} (randint : Z -> Z -> G -> Z * G)
    net single two g dict_break ev :
  main randint net single two g = Ok dict_break ->
  ev ∈ dict_break ->
  exists trip,
    ((Driver ev = 1%Z /\ single !! Trip_ID ev = Some trip) \/
     (Driver ev = 2%Z /\ two !! Trip_ID ev = Some trip)) /\
    Edge ev ∈ edges_list trip /\ Break_Number ev = trip_traffic trip.
Proof.
  intros Hmain Hin.
  destruct (main_breaks_row _ _ _ _ _ _ _ _ Hmain Hin)
    as (trip & Hmode & _ & Htrip).
  exists trip. split; [exact Hmode | exact Htrip].
Qed.

(** X4. A trip has at most one break per edge of its path; a trip with
    an empty path, as [parse_edge_string] yields for a malformed string,
    has none. *)
Theorem at_most_one_break_per_edge {G : Type}
    (randint : Z -> Z -> G -> Z * G) net single two g dict_break :
  main randint net single two g = Ok dict_break ->
  (forall k trip, single !! k = Some trip ->
     length (breaks_of 1 k dict_break) <= length (edges_list trip)) /\
  (forall k trip, two !! k = Some trip ->
     length (breaks_of 2 k dict_break) <= length (edges_list trip)).
Proof.
  intros Hmain.
  destruct (main_breaks_blocks randint net DISTANCE_THRESHOLD
              (fun _ trip evs => trip_block net trip evs)
              (fun _ trip evs => trip_block net trip evs)
              (single_trip_block randint net DISTANCE_THRESHOLD)
              (two_trip_block randint net DISTANCE_THRESHOLD)
              single two g dict_break Hmain) as (_ & H1 & H2).
  split; intros k trip Hk; [apply (H1 k trip Hk) | apply (H2 k trip Hk)].
Qed.

(** *** Comparisons and sums *)

Lemma Qgtb_true (a b : Q) : Qgtb a b = true <-> (b < a)%Q.
Proof.
  unfold Qgtb. rewrite negb_true_iff, <- not_true_iff_false, Qle_bool_iff.
  split; [apply Qnot_le_lt | apply Qlt_not_le].
Qed.

Lemma Qgtb_false (a b : Q) : Qgtb a b = false <-> (a <= b)%Q.
Proof. unfold Qgtb. rewrite negb_false_iff. apply Qle_bool_iff. Qed.

Lemma sumQ_cons (x : Q) (l : list Q) : sumQ (x :: l) = (x + sumQ l)%Q.
Proof. reflexivity. Qed.

(** *** The two filters of the traffic flow *)

Lemma filter_row_elem (f : FlowRow -> bool) (df : list FlowRow) (k : nat)
    (trip : Trip) :
  (trip_of_row <$> List.filter f df) !! k = Some trip ->
  exists r, r ∈ df /\ f r = true /\ trip = trip_of_row r.
Proof.
  intros H. apply list_elem_of_lookup_2, list_elem_of_fmap in H
    as (r & -> & Hr).
  apply list_elem_of_In, filter_In in Hr as [Hin Hf].
  exists r. split; [apply list_elem_of_In, Hin | split; [exact Hf | reflexivity]].
Qed.

(** X6. Every row the run on the unfiltered traffic flow returns has a
    positive [Break_Number]: rows of the flow without trucks are filtered
    out before any trip is walked. *)
Theorem breaks_have_positive_count {G : Type}
    (randint : Z -> Z -> G -> Z * G) net df_traffic_flow g dict_break :
  main_traffic_flow randint net df_traffic_flow g = Ok dict_break ->
  Forall (fun ev => (0 < Break_Number ev)%Q) dict_break.
Proof.
  unfold main_traffic_flow, main. intros Hmain. apply Forall_forall.
  intros ev Hin.
  destruct (main_breaks_row _ _ _ _ _ _ _ _ Hmain Hin)
    as (trip & [[_ Htrip] | [_ Htrip]] & _ & _ & Hcount);
    apply filter_row_elem in Htrip as (r & _ & Hf & ->);
    rewrite Hcount; cbn [trip_of_row trip_traffic].
  - unfold single_driver_row in Hf. apply andb_true_iff in Hf as [_ Hf].
    apply Qgtb_true, Hf.
  - unfold two_driver_row in Hf. apply andb_true_iff in Hf as [_ Hf].
    apply Qgtb_true, Hf.
Qed.

(** X7. No row of the traffic flow passes both filters, and a row passes
    one of them exactly when its truck count and its total distance are
    positive; the total distance, at most or above 4320 km, decides which. *)
Theorem driver_modes_partition (r : FlowRow) :
  single_driver_row r && two_driver_row r = false /\
  (single_driver_row r || two_driver_row r = true <->
   (0 < Distance_from_origin_region_to_E_road r + Distance_within_E_road r)%Q
   /\ (0 < Traffic_flow_trucks_2030 r)%Q) /\
  (two_driver_row r = true ->
   (MAX_DISTANCE_SINGLEDRIVER
    < Distance_from_origin_region_to_E_road r + Distance_within_E_road r)%Q).
Proof.
  unfold single_driver_row, two_driver_row. cbv zeta.
  set (total := (Distance_from_origin_region_to_E_road r
                 + Distance_within_E_road r)%Q).
  set (trucks := Traffic_flow_trucks_2030 r).
  split; [|split].
  - unfold Qgtb. destruct (Qle_bool total 0), (Qle_bool total _),
      (Qle_bool trucks 0); reflexivity.
  - rewrite orb_true_iff, !andb_true_iff, !Qgtb_true, Qle_bool_iff.
    unfold MAX_DISTANCE_SINGLEDRIVER. split.
    + intros [[[Ht _] Hf] | [Ht Hf]]; split; (assumption || lra).
    + intros [Ht Hf]. destruct (Qlt_le_dec 4320 total) as [Hbig | Hsmall].
      * right. split; assumption.
      * left. repeat split; assumption.
  - rewrite andb_true_iff, Qgtb_true. intros [Ht _]. exact Ht.
Qed.

(** *** The theorems on sample runs *)

Ltac known_edges :=
  repeat (constructor;
          [do 4 eexists; repeat split; vm_compute; reflexivity|]);
  constructor.

Lemma known_edges_run_returns_witness :
  exists dict_break,
    main Sample.lcg Sample.net [Sample.trip_200] [Sample.trip_500] 42%Z
    = Ok dict_break.
Proof.
  apply (known_edges_run_returns Sample.lcg Sample.net
           [Sample.trip_200] [Sample.trip_500] 42%Z).
  repeat (constructor; [unfold known_trip; cbn [edges_list Sample.trip_200
            Sample.trip_500]; known_edges|]).
  constructor.
Defined.

Lemma rows_match_network_witness :
  exists dict_break,
    main Sample.lcg Sample.net [Sample.trip_200] [Sample.trip_500] 42%Z
    = Ok dict_break /\
    Forall (row_matches_network Sample.net) dict_break.
Proof.
  eexists. split; [vm_compute; reflexivity|].
  apply (rows_match_network Sample.lcg Sample.net
           [Sample.trip_200] [Sample.trip_500] 42%Z).
  vm_compute. reflexivity.
Defined.

Lemma rows_match_trips_witness :
  exists dict_break ev trip,
    main Sample.lcg Sample.net [Sample.trip_200] [Sample.trip_500] 42%Z
    = Ok dict_break /\
    dict_break !! 0 = Some ev /\
    ((Driver ev = 1%Z /\ [Sample.trip_200] !! Trip_ID ev = Some trip) \/
     (Driver ev = 2%Z /\ [Sample.trip_500] !! Trip_ID ev = Some trip)) /\
    Edge ev ∈ edges_list trip /\ Break_Number ev = trip_traffic trip.
Proof.
  eexists _, _.
  match goal with |- exists trip, ?A /\ ?B /\ _ =>
    assert (HA : A) by (vm_compute; reflexivity);
    assert (HB : B) by (vm_compute; reflexivity)
  end.
  destruct (rows_match_trips Sample.lcg Sample.net
              [Sample.trip_200] [Sample.trip_500] 42%Z _ _ HA
              (list_elem_of_lookup_2 _ _ _ HB)) as (trip & Hmode & Hrow).
  exists trip. split; [exact HA|]. split; [exact HB|].
  split; [exact Hmode | exact Hrow].
Defined.

Lemma at_most_one_break_per_edge_witness :
  exists dict_break,
    main Sample.lcg Sample.net [Sample.trip_200] [Sample.trip_500] 42%Z
    = Ok dict_break /\
    length (breaks_of 1 0 dict_break) <= 3.
Proof.
  eexists. split; [vm_compute; reflexivity|].
  refine (proj1 (at_most_one_break_per_edge Sample.lcg Sample.net
                   [Sample.trip_200] [Sample.trip_500] 42%Z _ _)
            0 Sample.trip_200 _);
    [vm_compute; reflexivity | reflexivity].
Defined.

Lemma breaks_have_positive_count_witness :
  exists dict_break,
    main_traffic_flow Sample.lcg Sample.net Sample.flow 42%Z = Ok dict_break /\
    Forall (fun ev => (0 < Break_Number ev)%Q) dict_break.
Proof.
  eexists. split; [vm_compute; reflexivity|].
  apply (breaks_have_positive_count Sample.lcg Sample.net Sample.flow 42%Z).
  vm_compute. reflexivity.
Defined.

End SegmentsFacts.

(** ** Reading edge paths ([parse_edge_string]) *)

Module ParseFacts.

Import Pausenkoordinaten.

Lemma mapM_Ok_length {A B : Type} (f : A -> Result B) (l : list A) :
  forall k, mapM f l = Ok k -> length k = length l.
Proof.
  induction l as [|x l IH]; intros k H; simpl in H.
  - injection H as <-. reflexivity.
  - apply bind_Ok in H as (y & _ & H). apply bind_Ok in H as (k' & Hk' & H).
    injection H as <-. simpl. f_equal. apply IH, Hk'.
Qed.

Lemma str_split_length (sep : ascii) (s : list ascii) :
  length (str_split sep s) = S (count_occ ascii_dec s sep).
Proof.
  induction s as [|c s IH]; simpl; [reflexivity|].
  destruct (Ascii.eqb_spec c sep) as [-> | Hne].
  - destruct (ascii_dec sep sep); [|congruence]. simpl. f_equal. exact IH.
  - destruct (ascii_dec c sep); [congruence|].
    destruct (str_split sep s) as [|field fields]; [discriminate | exact IH].
Qed.

Lemma str_split_no_sep (sep : ascii) (s : list ascii) :
  Forall (fun c => c <> sep) s -> str_split sep s = [s].
Proof.
  induction 1 as [|c s Hc _ IH]; simpl; [reflexivity|].
  destruct (Ascii.eqb_spec c sep); [congruence|]. rewrite IH. reflexivity.
Qed.

Lemma str_split_app (sep : ascii) (field rest : list ascii) :
  Forall (fun c => c <> sep) field ->
  str_split sep (field ++ sep :: rest) = field :: str_split sep rest.
Proof.
  induction 1 as [|c s Hc _ IH]; simpl.
  - rewrite Ascii.eqb_refl. reflexivity.
  - destruct (Ascii.eqb_spec c sep); [congruence|]. rewrite IH. reflexivity.
Qed.

(** Splitting undoes joining, for fields free of the separator. *)
Lemma str_split_join (sep : ascii) (fields : list (list ascii)) :
  fields <> [] ->
  Forall (Forall (fun c => c <> sep)) fields ->
  str_split sep (str_join sep fields) = fields.
Proof.
  intros Hne Hall. induction Hall as [|field fields Hfield Hrest IH];
    [congruence|].
  destruct fields as [|field' fields'].
  - simpl. apply str_split_no_sep, Hfield.
  - change (str_join sep (field :: field' :: fields'))
      with (field ++ sep :: str_join sep (field' :: fields')).
    rewrite str_split_app by exact Hfield. rewrite IH by discriminate.
    reflexivity.
Qed.

Lemma str_lstrip_keep (chars s : list ascii) :
  Forall (fun c => existsb (Ascii.eqb c) chars = false) s ->
  str_lstrip chars s = s.
Proof. destruct 1 as [|c s Hc _]; simpl; [reflexivity | by rewrite Hc]. Qed.

Lemma str_strip_enclosed (chars : list ascii) (l r : ascii)
    (body : list ascii) :
  existsb (Ascii.eqb l) chars = true ->
  existsb (Ascii.eqb r) chars = true ->
  Forall (fun c => existsb (Ascii.eqb c) chars = false) body ->
  str_strip chars (l :: body ++ [r]) = body.
Proof.
  intros Hl Hr Hbody. unfold str_strip, str_rstrip. simpl. rewrite Hl.
  destruct Hbody as [|c body Hc Hbody].
  - simpl. rewrite Hr. reflexivity.
  - simpl. rewrite Hc.
    change (c :: body ++ [r]) with ((c :: body) ++ [r]).
    rewrite reverse_app. simpl. rewrite Hr.
    rewrite str_lstrip_keep, reverse_involutive; [reflexivity|].
    apply Forall_reverse. constructor; assumption.
Qed.

Lemma str_join_Forall (P : ascii -> Prop) (sep : ascii)
    (fields : list (list ascii)) :
  P sep -> Forall (Forall P) fields -> Forall P (str_join sep fields).
Proof.
  intros Hsep. induction 1 as [|field fields Hfield Hrest IH];
    [constructor|].
  destruct fields as [|field' fields']; [exact Hfield|].
  change (str_join sep (field :: field' :: fields'))
    with (field ++ sep :: str_join sep (field' :: fields')).
  apply Forall_app. split; [exact Hfield|]. constructor; assumption.
Qed.

(** X8. A string made of an opening bracket, one or more fields joined
    by commas and a closing bracket, where the fields hold no comma and no
    bracket and [int] reads every field, is parsed to the numbers read, in
    order. *)
Theorem parse_edge_string_reads_list (int : list ascii -> Result Z)
    (fields : list (list ascii)) (edges : list Z) :
  fields <> [] ->
  Forall (Forall (fun c => c <> "," /\ c <> "[" /\ c <> "]")%char) fields ->
  mapM int fields = Ok edges ->
  parse_edge_string int ("["%char :: str_join "," fields ++ ["]"%char])
  = edges.
Proof.
  intros Hne Hall Hint. unfold parse_edge_string.
  rewrite str_strip_enclosed; [|reflexivity|reflexivity|].
  - rewrite str_split_join, Hint; [reflexivity | exact Hne |].
    eapply Forall_impl; [exact Hall|]. intros field Hfield.
    eapply Forall_impl; [exact Hfield|]. simpl. intros c (? & _). assumption.
  - apply (str_join_Forall
             (fun c => existsb (Ascii.eqb c) ["["; "]"]%char = false)).
    + reflexivity.
    + eapply Forall_impl; [exact Hall|]. intros field Hfield.
      eapply Forall_impl; [exact Hfield|]. simpl. intros c (_ & H1 & H2).
      destruct (Ascii.eqb_spec c "["); [congruence|].
      destruct (Ascii.eqb_spec c "]"); [congruence|]. reflexivity.
Qed.

(** X9. [parse_edge_string] returns all or nothing: either the empty
    list, or exactly one number for each comma-separated field of the
    string stripped of its outer brackets, each read by [int] from its
    field. *)
Theorem parse_edge_string_all_or_nothing (int : list ascii -> Result Z)
    (edge_str : list ascii) :
  parse_edge_string int edge_str = [] \/
  (length (parse_edge_string int edge_str)
   = S (count_occ ascii_dec (str_strip ["["; "]"]%char edge_str) ","%char) /\
   Forall2 (fun field edge => int field = Ok edge)
     (str_split "," (str_strip ["["; "]"]%char edge_str))
     (parse_edge_string int edge_str)).
Proof.
  unfold parse_edge_string.
  destruct (mapM int _) as [edges|e] eqn:H; [right | left; reflexivity].
  split.
  - rewrite (mapM_Ok_length _ _ _ H). apply str_split_length.
  - revert edges H.
    induction (str_split "," (str_strip ["["; "]"]%char edge_str))
      as [|field fields IH]; intros edges H; simpl in H.
    + injection H as <-. constructor.
    + apply bind_Ok in H as (y & Hy & H).
      apply bind_Ok in H as (k' & Hk' & H). injection H as <-.
      constructor; [exact Hy | apply IH, Hk'].
Qed.

Lemma parse_edge_string_reads_list_witness :
  parse_edge_string Sample.int_decimal Sample.path_12_13_14 = [12; 13; 14]%Z.
Proof.
  apply (parse_edge_string_reads_list Sample.int_decimal
           Sample.fields_12_13_14).
  - discriminate.
  - repeat (constructor; [repeat (constructor; [repeat split; discriminate|]);
                          constructor|]). constructor.
  - vm_compute. reflexivity.
Defined.

(** One field that [int] cannot read empties the whole list; so do the
    strings ["[]"] and [""], whose only field is empty. *)
Example parse_edge_string_bad_field :
  parse_edge_string Sample.int_decimal Sample.path_12_x_14 = [] /\
  parse_edge_string Sample.int_decimal ["["; "]"]%char = [] /\
  parse_edge_string Sample.int_decimal [] = [].
Proof. repeat split; vm_compute; reflexivity. Qed.

End ParseFacts.

(** ** Facility assignment: choices and totals *)

Module AssignmentMore.

Import Pausenzuordnung PausenzuordnungFacts.

Lemma for_each_app {A S : Type} (body : S -> A -> Result S) (l1 l2 : list A)
    (s : S) :
  for_each body s (l1 ++ l2)
  = for_each body s l1 ≫= fun s' => for_each body s' l2.
Proof.
  revert s. induction l1 as [|x l1 IH]; intros s; simpl; [reflexivity|].
  destruct (body s x) as [s'|e]; simpl; [apply IH | reflexivity].
Qed.

Lemma Forall2_Qle_refl (l : list Q) : Forall2 Qle l l.
Proof. induction l; constructor; [apply Qle_refl | assumption]. Qed.

Lemma Forall2_Qle_trans (l1 l2 l3 : list Q) :
  Forall2 Qle l1 l2 -> Forall2 Qle l2 l3 -> Forall2 Qle l1 l3.
Proof.
  intros H. revert l3. induction H as [|x y l1 l2 Hxy _ IH]; intros l3 H23;
    inversion H23; subst; constructor;
    [eapply Qle_trans; eassumption | apply IH; assumption].
Qed.

Lemma insert_Qle (l : list Q) : forall (j : nat) (v c : Q),
  l !! j = Some v -> (0 <= c)%Q -> Forall2 Qle l (<[j := (v + c)%Q]> l).
Proof.
  induction l as [|x l IH]; intros [|j] v c H Hc; simpl in *;
    try discriminate.
  - injection H as ->. constructor; [lra | apply Forall2_Qle_refl].
  - constructor; [apply Qle_refl | apply IH; assumption].
Qed.

Section Choices.

Context {Geom Point : Type}.
Variable contains : Geom -> Point -> bool.
Variable distance : Geom -> Point -> Q.

Local Abbreviation contained_indices := (contained_indices contains).
Local Abbreviation assign_break := (assign_break contains distance).

(** A strictly ascending list whose only member is [k] is [[k]]. *)
Lemma contained_indices_singleton (kreis : list Geom) (p : Point) (k : nat) :
  (forall k', k' ∈ contained_indices kreis p <-> k' = k) ->
  contained_indices kreis p = [k].
Proof.
  intros Hmem.
  destruct (contained_indices kreis p) as [|a [|b rest]] eqn:E.
  - assert (Hk : k ∈ @nil nat) by (apply Hmem; reflexivity). inversion Hk.
  - f_equal. apply Hmem, elem_of_cons. left. reflexivity.
  - assert (Ha : a = k) by (apply Hmem, elem_of_cons; left; reflexivity).
    assert (Hb : b = k).
    { apply Hmem, elem_of_cons. right. apply elem_of_cons. left. reflexivity. }
    subst a b. unfold Pausenzuordnung.contained_indices, np_where in E.
    destruct (where_from_split _ _ [] k (k :: rest) E) as [_ Hpost].
    assert (k < k) by (apply Hpost, elem_of_cons; left; reflexivity). lia.
Qed.

(** X10. A break inside the buffer of exactly one facility adds its count
    to that facility and to no other, whatever the distances are. *)
Theorem containment_priority (kreis : list Geom) (results : list Q)
    (row : BreakRow (Point := Point)) (k : nat) (g : Geom) :
  length results = length kreis ->
  kreis !! k = Some g ->
  contains g (geometry row) = true ->
  (forall k' g', kreis !! k' = Some g' -> k' <> k ->
     contains g' (geometry row) = false) ->
  exists v, results !! k = Some v /\
    assign_break kreis results row
    = Ok (<[k := (v + Break_Number row)%Q]> results).
Proof.
  intros Hlen Hk Hin Hout.
  assert (Hci : contained_indices kreis (geometry row) = [k]).
  { apply contained_indices_singleton. intros k'.
    rewrite elem_of_contained_indices. split.
    - intros (g' & Hg' & Hc). destruct (decide (k' = k)) as [|Hne];
        [assumption|]. rewrite (Hout k' g' Hg' Hne) in Hc. discriminate.
    - intros ->. eauto. }
  assert (Hlt : k < length results)
    by (rewrite Hlen; eapply lookup_lt_Some, Hk).
  apply lookup_lt_is_Some in Hlt as [v Hv]. exists v. split; [exact Hv|].
  unfold Pausenzuordnung.assign_break. cbv zeta. rewrite Hci.
  apply list_iadd_Ok. eauto.
Qed.



(** *** Running totals through a pass *)

Lemma assign_loop_monotone (kreis : list Geom)
    (breaks : list (BreakRow (Point := Point))) :
  Forall (fun row => (0 <= Break_Number row)%Q) breaks ->
  forall results results',
    for_each (assign_break kreis) results breaks = Ok results' ->
    Forall2 Qle results results'.
Proof.
  induction 1 as [|row breaks Hrow _ IH]; intros results results' H;
    cbn [for_each] in H.
  - injection H as <-. apply Forall2_Qle_refl.
  - apply bind_Ok in H as (r1 & Hstep & H).
    apply assign_break_Ok in Hstep as (j & v & Hv & ->).
    eapply Forall2_Qle_trans; [apply insert_Qle; eassumption | apply IH, H].
Qed.

(** X11. With no negative truck count, no facility's count ever goes
    down during a pass: after any further breaks every count is at least
    what it was before them, and at least 0. *)
Theorem counts_never_decrease {Standort : Type}
    (breaks1 breaks2 : list (BreakRow (Point := Point)))
    (gdf_ausschreibung : list Standort) (kreis : list Geom)
    (results2 : list Q) :
  Forall (fun row => (0 <= Break_Number row)%Q) (breaks1 ++ breaks2) ->
  assign_breaks_to_points contains distance (breaks1 ++ breaks2)
    gdf_ausschreibung kreis = Ok results2 ->
  exists results1,
    assign_breaks_to_points contains distance breaks1 gdf_ausschreibung kreis
    = Ok results1 /\
    Forall2 Qle results1 results2 /\
    Forall (fun v => (0 <= v)%Q) results1.
Proof.
  unfold assign_breaks_to_points. intros Hnn H.
  apply Forall_app in Hnn as [Hnn1 Hnn2]. rewrite for_each_app in H.
  apply bind_Ok in H as (results1 & H1 & H2). exists results1.
  split; [exact H1|]. split; [eapply assign_loop_monotone; eassumption|].
  apply (assign_loop_monotone _ _ Hnn1) in H1. clear -H1.
  remember (replicate (length gdf_ausschreibung) 0%Q) as zeros eqn:Hz.
  assert (Hzeros : Forall (fun v => v = 0%Q) zeros)
    by (subst zeros; apply Forall_replicate; reflexivity).
  clear Hz. induction H1 as [|x y l1 l2 Hxy _ IH]; [constructor|].
  inversion Hzeros; subst. constructor; [exact Hxy | apply IH; assumption].
Qed.

(** *** Which breaks a count is made of *)




End Choices.

(** *** The theorems on sample passes *)

Ltac Qle_closed := vm_compute; discriminate.

Lemma containment_priority_witness :
  exists v, Sample.totals !! 0 = Some v /\
    assign_break Line.contains Line.distance Sample.kreise Sample.totals
      Sample.row_first = Ok (<[0 := (v + 4)%Q]> Sample.totals).
Proof.
  apply (containment_priority Line.contains Line.distance Sample.kreise
           Sample.totals Sample.row_first 0 (Line.mkInterval 0 10)).
  - reflexivity.
  - reflexivity.
  - vm_compute. reflexivity.
  - intros [|[|k']] g' Hg' Hne; [congruence | | discriminate].
    injection Hg' as <-. vm_compute. reflexivity.
Defined.

Lemma counts_never_decrease_witness :
  exists results1,
    assign_breaks_to_points Line.contains Line.distance
      [mkBreakRow 5%Q 3%Q] Sample.standorte Sample.kreise = Ok results1 /\
    Forall2 Qle results1 [3%Q; 5%Q] /\
    Forall (fun v => (0 <= v)%Q) results1.
Proof.
  apply (counts_never_decrease Line.contains Line.distance
           [mkBreakRow 5%Q 3%Q] [mkBreakRow 5%Q 4%Q; mkBreakRow 100%Q 1%Q]
           Sample.standorte Sample.kreise [3%Q; 5%Q]).
  - repeat (constructor; [Qle_closed|]). constructor.
  - vm_compute. reflexivity.
Defined.


End AssignmentMore.

(** ** Break segmentation: how many short and how many long breaks *)

Module CountsFacts.

Import Pausenkoordinaten PausenkoordinatenFacts Segments.

Lemma breaks_count_app ty evs1 evs2 :
  breaks_count ty (evs1 ++ evs2) = breaks_count ty evs1 + breaks_count ty evs2.
Proof. unfold breaks_count. rewrite filter_app. apply length_app. Qed.

Lemma breaks_count_one ty ev :
  breaks_count ty [ev] = if decide (Break_Type ev = ty) then 1 else 0.
Proof.
  unfold breaks_count. destruct (decide (Break_Type ev = ty)) as [H | H].
  - rewrite filter_cons_True by exact H. reflexivity.
  - rewrite filter_cons_False by exact H. reflexivity.
Qed.

Lemma breaks_count_total evs :
  breaks_count short evs + breaks_count long evs = length evs.
Proof.
  induction evs as [|ev evs IH]; [reflexivity|].
  change (ev :: evs) with ([ev] ++ evs). rewrite !breaks_count_app.
  rewrite !breaks_count_one. simpl length.
  destruct (Break_Type ev); simpl; lia.
Qed.

Lemma breaks_count_Permutation ty evs1 evs2 :
  evs1 ≡ₚ evs2 -> breaks_count ty evs1 = breaks_count ty evs2.
Proof. unfold breaks_count. intros H. rewrite H. reflexivity. Qed.

Lemma numbered_snoc driver index type_of b evs ev :
  numbered driver index type_of b (evs ++ [ev]) ->
  numbered driver index type_of b evs /\
  Break_Type ev = type_of (b + Z.of_nat (length evs) + 1)%Z.
Proof.
  intros H. split.
  - intros k ev' Hk. apply H. apply lookup_app_l_Some. exact Hk.
  - apply (H (length evs) ev). rewrite lookup_app_r by lia.
    rewrite Nat.sub_diag. reflexivity.
Qed.

(** One driver: short and long breaks take turns, short first. *)
Lemma single_driver_counts index evs :
  numbered 1 index single_driver_type 0 evs ->
  exists k,
    (length evs = 2 * k /\ breaks_count short evs = k /\
     breaks_count long evs = k) \/
    (length evs = 2 * k + 1 /\ breaks_count short evs = k + 1 /\
     breaks_count long evs = k).
Proof.
  induction evs as [|ev evs IH] using rev_ind; intros H.
  - exists 0. left. repeat split.
  - apply numbered_snoc in H as [Hnum Hty]. rewrite !breaks_count_app.
    rewrite !breaks_count_one, length_app. simpl length.
    unfold single_driver_type in Hty.
    destruct (IH Hnum) as (k & [(Hn & Hs & Hl) | (Hn & Hs & Hl)]);
      rewrite Hn in Hty.
    + replace (0 + Z.of_nat (2 * k) + 1)%Z with (1 + 2 * Z.of_nat k)%Z in Hty
        by lia.
      rewrite Z.odd_add_mul_2 in Hty. simpl in Hty. rewrite Hty.
      exists k. right. simpl. lia.
    + replace (0 + Z.of_nat (2 * k + 1) + 1)%Z
        with (0 + 2 * (Z.of_nat k + 1))%Z in Hty by lia.
      rewrite Z.odd_add_mul_2 in Hty. simpl in Hty. rewrite Hty.
      exists (k + 1). left. simpl. lia.
Qed.

(** Two drivers: every fourth break is long. *)
Lemma two_driver_counts index evs :
  numbered 2 index two_driver_type 0 evs ->
  exists k r,
    length evs = 4 * k + r /\ r < 4 /\
    breaks_count long evs = k /\ breaks_count short evs = 3 * k + r.
Proof.
  induction evs as [|ev evs IH] using rev_ind; intros H.
  - exists 0, 0. repeat split; lia.
  - apply numbered_snoc in H as [Hnum Hty]. rewrite !breaks_count_app.
    rewrite !breaks_count_one, length_app. simpl length.
    unfold two_driver_type in Hty.
    destruct (IH Hnum) as (k & r & Hn & Hr & Hl & Hs). rewrite Hn in Hty.
    replace (0 + Z.of_nat (4 * k + r) + 1)%Z
      with (Z.of_nat r + 1 + Z.of_nat k * 4)%Z in Hty by lia.
    rewrite Z.mod_add in Hty by lia.
    destruct (decide (r = 3)) as [-> | Hr3].
    + simpl in Hty. rewrite Hty. exists (k + 1), 0. simpl. lia.
    + assert (Hmod : ((Z.of_nat r + 1) mod 4 = Z.of_nat r + 1)%Z)
        by (apply Z.mod_small; lia).
      rewrite Hmod in Hty.
      destruct (Z.eqb_spec (Z.of_nat r + 1) 0) as [Hz | _]; [lia|].
      rewrite Hty. exists k, (r + 1). simpl. lia.
Qed.

(** X15. Among the breaks of a one-driver trip the short ones equal the
    long ones in number or exceed them by one; among the [n] breaks of a
    two-driver trip the long ones number [n / 4], rounded down, and all
    others are short. *)
Theorem short_and_long_per_trip {G : Type} (randint : Z -> Z -> G -> Z * G)
    net single two g dict_break index :
  main randint net single two g = Ok dict_break ->
  (breaks_count long (breaks_of 1 index dict_break)
   <= breaks_count short (breaks_of 1 index dict_break)
   <= breaks_count long (breaks_of 1 index dict_break) + 1) /\
  (4 * breaks_count long (breaks_of 2 index dict_break)
   <= length (breaks_of 2 index dict_break)
   <= 4 * breaks_count long (breaks_of 2 index dict_break) + 3) /\
  (breaks_count short (breaks_of 2 index dict_break)
   + breaks_count long (breaks_of 2 index dict_break)
   = length (breaks_of 2 index dict_break)).
Proof.
  intros Hmain.
  apply main_breaks_numbered with (index := index) in Hmain as [H1 H2].
  apply single_driver_counts in H1 as (k & Hk).
  apply two_driver_counts in H2 as (k2 & r & Hn & Hr & Hl & Hs).
  split; [lia|]. split; [lia|]. apply breaks_count_total.
Qed.

(** A loop over the trips keeps every property of the appended rows that
    holds of no rows and is kept by appending. *)
Lemma trips_closed {G : Type}
    (step : G * list Break -> nat * Trip -> Result (G * list Break))
    (R : list Break -> Prop) :
  R [] -> (forall a b, R a -> R b -> R (a ++ b)) ->
  (forall g out it g' out',
     step (g, out) it = Ok (g', out') ->
     exists evs, out' = out ++ evs /\ R evs) ->
  forall its g out g' out',
    for_each step (g, out) its = Ok (g', out') ->
    exists evs, out' = out ++ evs /\ R evs.
Proof.
  intros Hnil Happ Hstep. induction its as [|it its IH];
    intros g out g' out' H; simpl in H.
  - injection H as <- <-. exists []. rewrite app_nil_r. split; [reflexivity|].
    exact Hnil.
  - apply bind_Ok in H as ([g1 out1] & H1 & H).
    apply Hstep in H1 as (evs1 & -> & HR1).
    apply IH in H as (evs2 & -> & HR2).
    exists (evs1 ++ evs2). rewrite <- app_assoc. split; [reflexivity|].
    apply Happ; assumption.
Qed.

(** X16. In the rows [main] returns, in whatever order they are sorted
    for the export, long breaks never outnumber short breaks: the count
    printed as [Long Breaks] is at most the one printed as
    [Short Breaks]. *)
Theorem long_breaks_never_outnumber_short {G : Type}
    (randint : Z -> Z -> G -> Z * G) net single two g dict_break df_breaks :
  main randint net single two g = Ok dict_break ->
  df_breaks ≡ₚ dict_break ->
  breaks_count long df_breaks <= breaks_count short df_breaks.
Proof.
  intros Hmain Hperm.
  rewrite !(breaks_count_Permutation _ _ _ Hperm).
  set (R := fun evs => breaks_count long evs <= breaks_count short evs).
  assert (Hnil : R []) by (unfold R; reflexivity).
  assert (Happ : forall a b, R a -> R b -> R (a ++ b))
    by (unfold R; intros a b Ha Hb; rewrite !breaks_count_app; lia).
  unfold main, main_breaks in Hmain.
  apply bind_Ok in Hmain as ([g1 out1] & H1 & H).
  apply bind_Ok in H as ([g2 out2] & H2 & H). injection H as <-.
  apply (trips_closed _ R Hnil Happ) in H1 as (evs1 & -> & HR1).
  - apply (trips_closed _ R Hnil Happ) in H2 as (evs2 & -> & HR2).
    + simpl. apply Happ; assumption.
    + intros g0 out [index trip] g' out' Hstep.
      apply two_trip_numbered in Hstep as (evs & -> & Hnum).
      exists evs. split; [reflexivity|].
      apply two_driver_counts in Hnum as (k & r & _ & _ & Hl & Hs).
      unfold R. lia.
  - intros g0 out [index trip] g' out' Hstep.
    apply single_trip_numbered in Hstep as (evs & -> & Hnum).
    exists evs. split; [reflexivity|].
    apply single_driver_counts in Hnum as (k & Hk). unfold R. lia.
Qed.

Lemma short_and_long_per_trip_witness :
  exists dict_break,
    main Sample.lcg Sample.net [Sample.trip_200; Sample.trip_500]
      [Sample.trip_500] 42%Z = Ok dict_break /\
    breaks_count short (breaks_of 1 1 dict_break) = 3 /\
    breaks_count long (breaks_of 1 1 dict_break)
    <= breaks_count short (breaks_of 1 1 dict_break)
    <= breaks_count long (breaks_of 1 1 dict_break) + 1.
Proof.
  eexists. split; [vm_compute; reflexivity|].
  split; [vm_compute; reflexivity|].
  refine (proj1 (short_and_long_per_trip Sample.lcg Sample.net
                   [Sample.trip_200; Sample.trip_500] [Sample.trip_500]
                   42%Z _ 1 _)).
  vm_compute. reflexivity.
Defined.

Lemma long_breaks_never_outnumber_short_witness :
  exists dict_break,
    main Sample.lcg Sample.net [Sample.trip_200; Sample.trip_500]
      [Sample.trip_500] 42%Z = Ok dict_break /\
    breaks_count long (reverse dict_break)
    <= breaks_count short (reverse dict_break).
Proof.
  eexists. split; [vm_compute; reflexivity|].
  eapply (long_breaks_never_outnumber_short Sample.lcg Sample.net
            [Sample.trip_200; Sample.trip_500] [Sample.trip_500] 42%Z).
  - vm_compute. reflexivity.
  - apply reverse_Permutation.
Defined.

End CountsFacts.

(** * Facts about [ladebedarf.py] *)

Module LadebedarfFacts.

Import Ladebedarf.

Lemma str_eqb_eq (s t : list ascii) : str_eqb s t = true <-> s = t.
Proof.
  unfold str_eqb. destruct (Stdlib.Lists.List.list_eq_dec ascii_dec s t).
  - split; [intros _; assumption | reflexivity].
  - split; [discriminate | contradiction].
Qed.

Lemma elem_of_List_filter {A : Type} (f : A -> bool) (l : list A) (x : A) :
  x ∈ List.filter f l <-> x ∈ l /\ f x = true.
Proof.
  rewrite !list_elem_of_In. apply filter_In.
Qed.

(** ** [update_mauttabelle_with_befahrung] *)

Lemma update_one_ID (row : BefahrungRow) (m : MautRow) :
  Abschnitts_ID (update_one row m) = Abschnitts_ID m.
Proof.
  unfold update_one. destruct (_ =? _)%Z; reflexivity.
Qed.

(** The loop over [df_befahrung] acts on every row of the table on its
    own. *)
Lemma fold_update_rows (df_befahrung : list BefahrungRow) :
  forall df : list MautRow,
  fold_left update_with_row df_befahrung df =
  (fun m => fold_left (fun m row => update_one row m) df_befahrung m) <$> df.
Proof.
  induction df_befahrung as [|row rows IH]; intros df; cbn [fold_left].
  - symmetry. apply list_fmap_id.
  - rewrite IH. unfold update_with_row. rewrite <- list_fmap_compose.
    reflexivity.
Qed.

Lemma fold_update_one_ID (df_befahrung : list BefahrungRow) :
  forall m : MautRow,
  Abschnitts_ID (fold_left (fun m row => update_one row m) df_befahrung m)
  = Abschnitts_ID m.
Proof.
  induction df_befahrung as [|row rows IH]; intros m; cbn [fold_left].
  - reflexivity.
  - rewrite IH. apply update_one_ID.
Qed.

Lemma last_befahrung_snoc (id : Z) (rows : list BefahrungRow)
    (row : BefahrungRow) :
  last_befahrung id (rows ++ [row]) =
  if (id =? Strecken_ID row)%Z then Some row else last_befahrung id rows.
Proof.
  unfold last_befahrung. rewrite List.filter_app. cbn [List.filter].
  destruct (id =? Strecken_ID row)%Z.
  - apply last_snoc.
  - rewrite app_nil_r. reflexivity.
Qed.

(** On one row of the table the loop leaves the values of the last row of
    [df_befahrung] for its section. *)
Lemma fold_update_one_last (df_befahrung : list BefahrungRow) (m : MautRow) :
  fold_left (fun m row => update_one row m) df_befahrung m =
  with_last (last_befahrung (Abschnitts_ID m) df_befahrung) m.
Proof.
  induction df_befahrung as [|row rows IH] using rev_ind.
  - reflexivity.
  - rewrite fold_left_app. cbn [fold_left]. rewrite last_befahrung_snoc.
    unfold update_one at 1. rewrite fold_update_one_ID.
    destruct (Abschnitts_ID m =? Strecken_ID row)%Z.
    + rewrite IH. unfold with_last.
      destruct (last_befahrung _ rows); reflexivity.
    + apply IH.
Qed.

Lemma update_as_map (df_mauttabelle : list MautRow)
    (df_befahrung : list BefahrungRow) :
  update_mauttabelle_with_befahrung df_mauttabelle df_befahrung =
  (fun m => with_last (last_befahrung (Abschnitts_ID m) df_befahrung) m)
    <$> List.filter (fun m => negb (contains_B (Bundesfernstrasse m)))
          df_mauttabelle.
Proof.
  unfold update_mauttabelle_with_befahrung. rewrite fold_update_rows.
  apply list_fmap_ext. intros i m _. apply fold_update_one_last.
Qed.

(** X17. [update_mauttabelle_with_befahrung] returns the rows of the table
    whose road name has no [B], in their order, and each of them with the
    weekday values of the last row of [df_befahrung] whose [Strecken-ID]
    is its [Abschnitts-ID]; a row without such a row is returned as it
    is. *)
Theorem update_takes_last_befahrung (df_mauttabelle : list MautRow)
    (df_befahrung : list BefahrungRow) :
  update_mauttabelle_with_befahrung df_mauttabelle df_befahrung =
  (fun m => with_last (last_befahrung (Abschnitts_ID m) df_befahrung) m)
    <$> List.filter (fun m => negb (contains_B (Bundesfernstrasse m)))
          df_mauttabelle.
Proof.
  apply update_as_map.
Qed.

Lemma with_last_road (o : option BefahrungRow) (m : MautRow) :
  Bundesfernstrasse (with_last o m) = Bundesfernstrasse m.
Proof.
  destruct o; reflexivity.
Qed.

(** No row of the updated table is on a road with a [B] in its name. *)
Lemma update_rows_without_B (df_mauttabelle : list MautRow)
    (df_befahrung : list BefahrungRow) (m' : MautRow) :
  m' ∈ update_mauttabelle_with_befahrung df_mauttabelle df_befahrung ->
  contains_B (Bundesfernstrasse m') = false.
Proof.
  rewrite update_as_map. intros H.
  apply list_elem_of_fmap in H as (m & -> & Hm).
  apply elem_of_List_filter in Hm as [Hm Hb].
  rewrite with_last_road.
  destruct (contains_B _); [discriminate | reflexivity].
Qed.

(** ** [find_closest_row] and [assign_closest_rows] *)

Section ClosestFacts.

Variable sqrt : Q -> Q.

Local Abbreviation on_road row :=
  (fun m => str_eqb (Bundesfernstrasse m) (Bundesautobahn row)).
Local Abbreviation dist row :=
  (distance_to sqrt (Laengengrad row) (Breitengrad row)).

(** The two ways [find_closest_row] ends. *)
Lemma find_closest_row_cases (row : Standort) (table : list MautRow) :
  (List.filter (on_road row) table = [] /\
   find_closest_row sqrt row table = Raise ValueError) \/
  (exists j m, List.filter (on_road row) table !! j = Some m /\
     find_closest_row sqrt row table = Ok m /\
     (forall k m', List.filter (on_road row) table !! k = Some m' ->
        (dist row m <= dist row m')%Q) /\
     (forall k m', k < j -> List.filter (on_road row) table !! k = Some m' ->
        (dist row m < dist row m')%Q)).
Proof.
  unfold find_closest_row. cbv zeta.
  destruct (List.filter (on_road row) table) as [|m0 l] eqn:Hf.
  - left. split; reflexivity.
  - right.
    destruct (PausenzuordnungFacts.idxmin_spec (dist row <$> (m0 :: l)))
      as (j & d & Hj & Hd & Hle & Hlt); [discriminate|].
    rewrite Hj. cbn [mbind Result_bind].
    rewrite list_lookup_fmap in Hd.
    destruct ((m0 :: l) !! j) as [m|] eqn:Hm; [|discriminate].
    injection Hd as <-. exists j, m.
    split; [exact Hm|]. split; [reflexivity|]. split.
    + intros k m' Hk. apply (Hle k). rewrite list_lookup_fmap, Hk. reflexivity.
    + intros k m' Hlt' Hk. apply (Hlt k); [assumption|].
      rewrite list_lookup_fmap, Hk. reflexivity.
Qed.

Lemma on_road_filter (row : Standort) (table : list MautRow) (m : MautRow) :
  m ∈ List.filter (on_road row) table <->
  m ∈ table /\ Bundesfernstrasse m = Bundesautobahn row.
Proof.
  rewrite elem_of_List_filter, str_eqb_eq. reflexivity.
Qed.

Lemma find_closest_row_Ok (row : Standort) (table : list MautRow)
    (m : MautRow) :
  find_closest_row sqrt row table = Ok m ->
  m ∈ table /\ Bundesfernstrasse m = Bundesautobahn row /\
  forall m', m' ∈ table -> Bundesfernstrasse m' = Bundesautobahn row ->
    (dist row m <= dist row m')%Q.
Proof.
  intros H.
  destruct (find_closest_row_cases row table)
    as [[_ Hr] | (j & m1 & Hj & Hr & Hle & _)]; rewrite Hr in H;
    [discriminate|]. injection H as <-.
  apply list_elem_of_lookup_2, on_road_filter in Hj as [Hin Hroad].
  split; [assumption|]. split; [assumption|].
  intros m' Hin' Hroad'.
  assert (Hm' : m' ∈ List.filter (on_road row) table)
    by (apply on_road_filter; split; assumption).
  apply list_elem_of_lookup_1 in Hm' as [k Hk]. apply (Hle k), Hk.
Qed.

Lemma find_closest_row_Raise (row : Standort) (table : list MautRow)
    (e : PyError) :
  find_closest_row sqrt row table = Raise e <->
  e = ValueError /\
  forall m, m ∈ table -> Bundesfernstrasse m <> Bundesautobahn row.
Proof.
  destruct (find_closest_row_cases row table)
    as [[Hf Hr] | (j & m1 & Hj & Hr & _)]; rewrite Hr.
  - split.
    + intros [= <-]. split; [reflexivity|]. intros m Hin Hroad.
      assert (Hm : m ∈ List.filter (on_road row) table)
        by (apply on_road_filter; split; assumption).
      rewrite Hf in Hm. inversion Hm.
    + intros [-> _]. reflexivity.
  - split; [discriminate|]. intros [_ Hnone].
    apply list_elem_of_lookup_2, on_road_filter in Hj as [Hin Hroad].
    exfalso. apply (Hnone m1); assumption.
Qed.

(** X18. The row [find_closest_row] returns is a row of the table on the
    facility's road, and no row of the table on that road is nearer to
    the facility. *)
Theorem find_closest_row_nearest (row : Standort) (table : list MautRow)
    (m : MautRow) :
  find_closest_row sqrt row table = Ok m ->
  m ∈ table /\ Bundesfernstrasse m = Bundesautobahn row /\
  forall m', m' ∈ table -> Bundesfernstrasse m' = Bundesautobahn row ->
    (distance_to sqrt (Laengengrad row) (Breitengrad row) m
     <= distance_to sqrt (Laengengrad row) (Breitengrad row) m')%Q.
Proof.
  apply find_closest_row_Ok.
Qed.

(** X19. [find_closest_row] raises [ValueError] when no row of the table
    is on the facility's road, and only then; it raises nothing else, and
    with a row on that road it returns one. *)
Theorem find_closest_row_missing_road (row : Standort)
    (table : list MautRow) :
  (forall e, find_closest_row sqrt row table = Raise e <->
     e = ValueError /\
     forall m, m ∈ table -> Bundesfernstrasse m <> Bundesautobahn row) /\
  ((exists m, find_closest_row sqrt row table = Ok m) <->
   exists m, m ∈ table /\ Bundesfernstrasse m = Bundesautobahn row).
Proof.
  split; [intros e; apply find_closest_row_Raise|]. split.
  - intros [m H]. exists m. apply find_closest_row_Ok in H as (? & ? & _).
    split; assumption.
  - intros (m & Hin & Hroad).
    destruct (find_closest_row sqrt row table) as [m1|e] eqn:H;
      [exists m1; reflexivity|].
    apply find_closest_row_Raise in H as [_ Hnone].
    exfalso. apply (Hnone m); assumption.
Qed.

(** X20. Among the rows of the table on the facility's road that are
    equally near, [find_closest_row] returns the first: every row on that
    road before the returned one is strictly farther. *)
Theorem find_closest_row_first_nearest (row : Standort)
    (table : list MautRow) (m : MautRow) :
  find_closest_row sqrt row table = Ok m ->
  exists before after,
    List.filter (fun m' => str_eqb (Bundesfernstrasse m') (Bundesautobahn row))
      table = before ++ m :: after /\
    Forall (fun m' =>
      (distance_to sqrt (Laengengrad row) (Breitengrad row) m
       < distance_to sqrt (Laengengrad row) (Breitengrad row) m')%Q) before.
Proof.
  intros H.
  destruct (find_closest_row_cases row table)
    as [[_ Hr] | (j & m1 & Hj & Hr & _ & Hlt)]; rewrite Hr in H;
    [discriminate|]. injection H as <-.
  exists (take j (List.filter (on_road row) table)),
         (drop (S j) (List.filter (on_road row) table)).
  split.
  - symmetry. apply take_drop_middle, Hj.
  - apply Forall_lookup. intros k m' Hk.
    apply lookup_take_Some in Hk as [Hk Hkj]. apply (Hlt k); assumption.
Qed.

End ClosestFacts.

Section AssignFacts.

Variable sqrt : Q -> Q.

Local Abbreviation missing table :=
  (fun row : Standort =>
     forall m : MautRow, m ∈ table ->
       Bundesfernstrasse m <> Bundesautobahn row).

Lemma assign_closest_rows_cons (row : Standort) (df : list Standort)
    (table : list MautRow) :
  assign_closest_rows sqrt (row :: df) table =
  match find_closest_row sqrt row table with
  | Ok m =>
      match assign_closest_rows sqrt df table with
      | Ok result => Ok ((row, m) :: result)
      | Raise e => Raise e
      end
  | Raise e => Raise e
  end.
Proof.
  unfold assign_closest_rows. cbn [mapM mbind Result_bind].
  destruct (find_closest_row sqrt row table); reflexivity.
Qed.

Lemma assign_closest_rows_Raise (df : list Standort) (table : list MautRow)
    (e : PyError) :
  assign_closest_rows sqrt df table = Raise e <->
  e = ValueError /\ Exists (missing table) df.
Proof.
  induction df as [|row df IH].
  - split; [discriminate|]. intros [_ H]. inversion H.
  - rewrite assign_closest_rows_cons.
    destruct (find_closest_row sqrt row table) as [m|e1] eqn:Hrow.
    + assert (Hnot : ~ missing table row).
      { intros Hnone. apply find_closest_row_Ok in Hrow as (Hin & Hroad & _).
        apply (Hnone m); assumption. }
      destruct (assign_closest_rows sqrt df table) as [result|e2].
      * split; [discriminate|]. intros [He H].
        apply Exists_cons in H as [H | H]; [contradiction|].
        assert (Hr : Ok result = Raise e) by (apply IH; split; assumption).
        discriminate.
      * split.
        -- intros H. apply IH in H as [He H]. split; [assumption|].
           apply Exists_cons. right. assumption.
        -- intros [He H]. apply Exists_cons in H as [H | H]; [contradiction|].
           apply IH. split; assumption.
    + apply find_closest_row_Raise in Hrow as [-> Hnone]. split.
      * intros [= <-]. split; [reflexivity|]. apply Exists_cons. left.
        assumption.
      * intros [-> _]. reflexivity.
Qed.

Lemma assign_closest_rows_Ok (df : list Standort) (table : list MautRow) :
  forall result, assign_closest_rows sqrt df table = Ok result ->
  result.*1 = df /\
  Forall (fun p => find_closest_row sqrt p.1 table = Ok p.2) result.
Proof.
  induction df as [|row df IH]; intros result.
  - intros [= <-]. split; [reflexivity | constructor].
  - rewrite assign_closest_rows_cons.
    destruct (find_closest_row sqrt row table) as [m|e1] eqn:Hrow;
      [|discriminate].
    destruct (assign_closest_rows sqrt df table) as [result'|e2];
      [|discriminate].
    intros [= <-]. destruct (IH result' eq_refl) as [Hfst Hall]. split.
    + cbn. rewrite Hfst. reflexivity.
    + constructor; assumption.
Qed.

(** X21. [assign_closest_rows] as a whole raises [ValueError] when the
    table has no row on the road of one of the facilities, and only then:
    one such facility leaves the others without a result too. It raises
    nothing else. *)
Theorem assign_closest_rows_all_or_nothing (df_ausschreibung : list Standort)
    (df_mauttabelle : list MautRow) (e : PyError) :
  assign_closest_rows sqrt df_ausschreibung df_mauttabelle = Raise e <->
  e = ValueError /\
  Exists (fun row => forall m, m ∈ df_mauttabelle ->
            Bundesfernstrasse m <> Bundesautobahn row) df_ausschreibung.
Proof.
  apply assign_closest_rows_Raise.
Qed.

(** X22. The rows [assign_closest_rows] returns are the facilities, each
    once and in their order, each beside a row of the table on its road to
    which no row of the table on that road is nearer. *)
Theorem assign_closest_rows_pairs (df_ausschreibung : list Standort)
    (df_mauttabelle : list MautRow) (result : list (Standort * MautRow)) :
  assign_closest_rows sqrt df_ausschreibung df_mauttabelle = Ok result ->
  result.*1 = df_ausschreibung /\
  Forall (fun p =>
    p.2 ∈ df_mauttabelle /\ Bundesfernstrasse p.2 = Bundesautobahn p.1 /\
    forall m', m' ∈ df_mauttabelle ->
      Bundesfernstrasse m' = Bundesautobahn p.1 ->
      (distance_to sqrt (Laengengrad p.1) (Breitengrad p.1) p.2
       <= distance_to sqrt (Laengengrad p.1) (Breitengrad p.1) m')%Q) result.
Proof.
  intros H. apply assign_closest_rows_Ok in H as [Hfst Hall].
  split; [assumption|].
  eapply Forall_impl; [exact Hall|]. intros [row m] Hp.
  apply find_closest_row_Ok, Hp.
Qed.

Lemma contains_B_ne (s t : list ascii) :
  contains_B s = true -> contains_B t = false -> t <> s.
Proof.
  intros Hs Ht ->. congruence.
Qed.

(** X23. A facility on a road with a [B] in its name makes steps 3 and 4
    of [main] end with [ValueError]: the update of the table drops the
    rows of such roads, so that the search of the facility's road finds
    none. *)
Theorem main_closest_road_with_B (df_ausschreibung : list Standort)
    (df_befahrung : list BefahrungRow) (df_mauttabelle : list MautRow)
    (row : Standort) :
  row ∈ df_ausschreibung ->
  contains_B (Bundesautobahn row) = true ->
  main_closest sqrt df_ausschreibung df_befahrung df_mauttabelle
  = Raise ValueError.
Proof.
  intros Hin HB. unfold main_closest. cbv zeta.
  apply assign_closest_rows_Raise. split; [reflexivity|].
  apply Exists_exists. exists row. split; [assumption|].
  intros m Hm. apply contains_B_ne; [assumption|].
  eapply update_rows_without_B, Hm.
Qed.

End AssignFacts.

(** *** The theorems on a sample table *)

Lemma find_closest_row_nearest_witness :
  Sample.abschnitt_2 ∈ Sample.mauttabelle /\
  Bundesfernstrasse Sample.abschnitt_2 = Sample.A1 /\
  forall m', m' ∈ Sample.mauttabelle -> Bundesfernstrasse m' = Sample.A1 ->
    (distance_to Sample.squared 12 52 Sample.abschnitt_2
     <= distance_to Sample.squared 12 52 m')%Q.
Proof.
  apply (find_closest_row_nearest Sample.squared Sample.standort_A1
           Sample.mauttabelle Sample.abschnitt_2).
  vm_compute. reflexivity.
Defined.

Lemma find_closest_row_first_nearest_witness :
  exists before after,
    List.filter (fun m' => str_eqb (Bundesfernstrasse m') Sample.A1)
      (Sample.mauttabelle ++ Sample.mauttabelle)
    = before ++ Sample.abschnitt_2 :: after /\
    Forall (fun m' =>
      (distance_to Sample.squared 12 52 Sample.abschnitt_2
       < distance_to Sample.squared 12 52 m')%Q) before.
Proof.
  apply (find_closest_row_first_nearest Sample.squared Sample.standort_A1
           (Sample.mauttabelle ++ Sample.mauttabelle) Sample.abschnitt_2).
  vm_compute. reflexivity.
Defined.

Lemma assign_closest_rows_pairs_witness :
  exists result,
    assign_closest_rows Sample.squared
      [Sample.standort_A1; Sample.standort_A7] Sample.mauttabelle
    = Ok result /\
    result.*1 = [Sample.standort_A1; Sample.standort_A7] /\
    Forall (fun p =>
      p.2 ∈ Sample.mauttabelle /\
      Bundesfernstrasse p.2 = Bundesautobahn p.1 /\
      forall m', m' ∈ Sample.mauttabelle ->
        Bundesfernstrasse m' = Bundesautobahn p.1 ->
        (distance_to Sample.squared (Laengengrad p.1) (Breitengrad p.1) p.2
         <= distance_to Sample.squared (Laengengrad p.1) (Breitengrad p.1)
              m')%Q) result.
Proof.
  eexists. split; [vm_compute; reflexivity|].
  apply (assign_closest_rows_pairs Sample.squared
           [Sample.standort_A1; Sample.standort_A7] Sample.mauttabelle).
  vm_compute. reflexivity.
Defined.

Lemma main_closest_road_with_B_witness :
  main_closest Sample.squared
    [Sample.standort_A1; Sample.standort_B27; Sample.standort_A7]
    Sample.befahrung Sample.mauttabelle = Raise ValueError.
Proof.
  apply (main_closest_road_with_B Sample.squared _ Sample.befahrung
           Sample.mauttabelle Sample.standort_B27).
  - apply elem_of_cons. right. apply elem_of_cons. left. reflexivity.
  - reflexivity.
Defined.

End LadebedarfFacts.

(** * Facts about the assignment with binary64 counts *)

Module Pausenzuordnung64Facts.

Import Pausenzuordnung64.

(** *** [idxmin] with NaN entries *)

Lemma idxmin64_from_spec (l : list (option Q)) : forall (i : nat) best,
  match idxmin_from i best l with
  | None => best = None /\ Forall (fun x => x = None) l
  | Some j =>
      (exists bv, best = Some (j, bv) /\
         forall k d, l !! k = Some (Some d) -> (bv <= d)%Q) \/
      (exists n d, j = i + n /\ l !! n = Some (Some d) /\
         (forall b bv, best = Some (b, bv) -> (d < bv)%Q) /\
         (forall k d', l !! k = Some (Some d') -> (d <= d')%Q) /\
         (forall k d', k < n -> l !! k = Some (Some d') -> (d < d')%Q))
  end.
Proof.
  induction l as [|[d|] l IH]; intros i best; cbn [idxmin_from].
  - destruct best as [[b bv]|]; cbn.
    + left. exists bv. split; [reflexivity|]. intros k d Hk. inversion Hk.
    + split; [reflexivity | constructor].
  - assert (Hnew : match idxmin_from (S i) (Some (i, d)) l with
                   | None => False
                   | Some j =>
                       exists n d0, j = i + n /\
                         (Some d :: l) !! n = Some (Some d0) /\
                         (d0 <= d)%Q /\
                         (forall k d', (Some d :: l) !! k = Some (Some d') ->
                            (d0 <= d')%Q) /\
                         (forall k d', k < n ->
                            (Some d :: l) !! k = Some (Some d') ->
                            (d0 < d')%Q)
                   end).
    { specialize (IH (S i) (Some (i, d))).
      destruct (idxmin_from (S i) (Some (i, d)) l) as [j|];
        [|destruct IH; discriminate].
      destruct IH as [(bv & [= <- <-] & Hall)
                     | (n & d0 & -> & Hn & Hlt & Hle & Hfirst)].
      - exists 0, d. split; [lia|]. split; [reflexivity|].
        split; [apply Qle_refl|]. split; [|intros k d' Hk; lia].
        intros [|k] d' Hk; cbn in Hk; [|eauto].
        injection Hk as <-. apply Qle_refl.
      - pose proof (Hlt i d eq_refl) as Hd0.
        exists (S n), d0. split; [lia|]. split; [exact Hn|].
        split; [apply Qlt_le_weak, Hd0|]. split.
        + intros [|k] d' Hk; cbn in Hk; [|eauto].
          injection Hk as <-. apply Qlt_le_weak, Hd0.
        + intros [|k] d' Hk Hd'; cbn in Hd'.
          * injection Hd' as <-. exact Hd0.
          * eapply Hfirst; [|exact Hd']. lia. }
    destruct best as [[b bv]|].
    + destruct (Pausenzuordnung.Qltb d bv) eqn:Hcmp.
      * apply PausenzuordnungFacts.Qltb_true in Hcmp.
        destruct (idxmin_from (S i) (Some (i, d)) l) as [j|]; [|contradiction].
        destruct Hnew as (n & d0 & -> & Hn & Hd0 & Hle & Hfirst).
        right. exists n, d0. split; [reflexivity|]. split; [exact Hn|].
        split; [|split; assumption].
        intros b' bv' [= <- <-]. eapply Qle_lt_trans; eassumption.
      * apply PausenzuordnungFacts.Qltb_false in Hcmp.
        specialize (IH (S i) (Some (b, bv))).
        destruct (idxmin_from (S i) (Some (b, bv)) l) as [j|];
          [|destruct IH; discriminate].
        destruct IH as [(bv' & [= <- <-] & Hall)
                       | (n & d0 & -> & Hn & Hlt & Hle & Hfirst)].
        -- left. exists bv. split; [reflexivity|].
           intros [|k] d' Hk; cbn in Hk; [|eauto].
           injection Hk as <-. exact Hcmp.
        -- pose proof (Hlt b bv eq_refl) as Hd0.
           right. exists (S n), d0. split; [lia|]. split; [exact Hn|].
           split; [intros b' bv' [= <- <-]; exact Hd0|]. split.
           ++ intros [|k] d' Hk; cbn in Hk; [|eauto].
              injection Hk as <-. apply Qlt_le_weak.
              eapply Qlt_le_trans; eassumption.
           ++ intros [|k] d' Hk Hd'; cbn in Hd'.
              ** injection Hd' as <-. eapply Qlt_le_trans; eassumption.
              ** eapply Hfirst; [|exact Hd']. lia.
    + destruct (idxmin_from (S i) (Some (i, d)) l) as [j|]; [|contradiction].
      destruct Hnew as (n & d0 & -> & Hn & Hd0 & Hle & Hfirst).
      right. exists n, d0. split; [reflexivity|]. split; [exact Hn|].
      split; [discriminate|]. split; assumption.
  - specialize (IH (S i) best).
    destruct (idxmin_from (S i) best l) as [j|].
    + destruct IH as [(bv & -> & Hall)
                     | (n & d0 & -> & Hn & Hlt & Hle & Hfirst)].
      * left. exists bv. split; [reflexivity|].
        intros [|k] d' Hk; cbn in Hk; [discriminate | eauto].
      * right. exists (S n), d0. split; [lia|]. split; [exact Hn|].
        split; [exact Hlt|]. split.
        -- intros [|k] d' Hk; cbn in Hk; [discriminate | eauto].
        -- intros [|k] d' Hk Hd'; cbn in Hd'; [discriminate|].
           eapply Hfirst; [|exact Hd']. lia.
    + destruct IH as [-> Hall]. split; [reflexivity|].
      constructor; [reflexivity | exact Hall].
Qed.

(** [idxmin] returns the first position of the smallest number of the
    series; it raises, [ValueError], exactly when the series holds no
    number. *)
Lemma idxmin64_Ok (l : list (option Q)) (j : nat) :
  idxmin l = Ok j ->
  exists d, l !! j = Some (Some d) /\
    (forall k d', l !! k = Some (Some d') -> (d <= d')%Q) /\
    (forall k d', k < j -> l !! k = Some (Some d') -> (d < d')%Q).
Proof.
  unfold idxmin. pose proof (idxmin64_from_spec l 0 None) as H.
  destruct (idxmin_from 0 None l) as [j'|]; [|discriminate].
  intros [= <-].
  destruct H as [(bv & Hbest & _) | (n & d & -> & Hn & _ & Hle & Hfirst)];
    [discriminate|].
  exists d. split; [exact Hn|]. split; assumption.
Qed.

Lemma idxmin64_Raise (l : list (option Q)) (e : PyError) :
  idxmin l = Raise e <-> e = ValueError /\ Forall (fun x => x = None) l.
Proof.
  unfold idxmin. pose proof (idxmin64_from_spec l 0 None) as H.
  destruct (idxmin_from 0 None l) as [j|].
  - split; [discriminate|]. intros [_ Hall].
    destruct H as [(bv & Hbest & _) | (n & d & _ & Hn & _)]; [discriminate|].
    eapply Forall_lookup_1 in Hall; [|exact Hn]. discriminate.
  - split; [intros [= <-]; split; [reflexivity | apply H]|].
    intros [-> _]. reflexivity.
Qed.

(** *** One break *)

Lemma list_iadd64_Ok (l : list Binary64.float) (i : nat)
    (c : Binary64.float) (l' : list Binary64.float) :
  list_iadd l i c = Ok l' <->
  exists v, l !! i = Some v /\ l' = <[i := Binary64.add v c]> l.
Proof.
  unfold list_iadd, list_getitem. destruct (l !! i) as [v|]; cbn.
  - split.
    + intros [= <-]. exists v. split; reflexivity.
    + intros (v' & [= <-] & ->). reflexivity.
  - split; [discriminate|]. intros (v' & Hv & _). discriminate.
Qed.

(** The loop over the containing positions selects one of them, or
    leaves the selection as it was. *)
Lemma select_kreis64_selected (results : list Binary64.float)
    (l : list nat) : forall m s m' s',
  for_each (select_kreis results) (m, s) l = Ok (m', s') ->
  s' = s \/ exists j, s' = Some j /\ j ∈ l.
Proof.
  induction l as [|k l IH]; intros m s m' s' H; cbn [for_each] in H.
  - injection H as <- <-. left. reflexivity.
  - apply bind_Ok in H as ([m1 s1] & Hstep & Hrest).
    unfold select_kreis in Hstep.
    apply bind_Ok in Hstep as (current & _ & Hstep).
    apply IH in Hrest as [-> | (j & -> & Hj)].
    + destruct (Binary64.ltb current m); injection Hstep as <- <-.
      * right. exists k. split; [reflexivity|].
        apply elem_of_cons. left. reflexivity.
      * left. reflexivity.
    + right. exists j. split; [reflexivity|].
      apply elem_of_cons. right. exact Hj.
Qed.

Section Assignment64Facts.

Context {Geom Point : Type}.
Variable contains : Geom -> Point -> bool.
Variable distance : Geom -> Point -> option Q.

Local Abbreviation contained_indices :=
  (Pausenzuordnung.contained_indices contains).
Local Abbreviation assign_break := (assign_break contains distance).
Local Abbreviation eligible := (eligible contains distance).

(** A break that is assigned adds its count, by one addition, to one
    entry of [results_breaks], at an eligible position. *)
Lemma assign_break64_Ok (kreis : list Geom) (results : list Binary64.float)
    (row : BreakRow (Point := Point)) (results' : list Binary64.float) :
  assign_break kreis results row = Ok results' ->
  exists j v, eligible kreis j row /\ results !! j = Some v /\
    results' = <[j := Binary64.add v (Break_Number row)]> results.
Proof.
  unfold Pausenzuordnung64.assign_break. cbv zeta.
  destruct (contained_indices kreis (geometry row)) as [|k0 [|k1 rest]] eqn:E.
  - intros H. apply bind_Ok in H as (j & Hidx & H).
    apply list_iadd64_Ok in H as (v & Hv & ->).
    apply idxmin64_Ok in Hidx as (d & Hd & Hle & _).
    rewrite list_lookup_fmap in Hd.
    destruct (kreis !! j) as [g|] eqn:Hg; [|discriminate].
    injection Hd as Hd. exists j, v. split; [|split; [exact Hv | reflexivity]].
    exists g. split; [exact Hg|]. right. split; [exact E|].
    exists d. split; [exact Hd|]. intros k h d' Hk Hd'.
    apply (Hle k). rewrite list_lookup_fmap, Hk. cbn. rewrite Hd'. reflexivity.
  - intros H. apply list_iadd64_Ok in H as (v & Hv & ->).
    exists k0, v. split; [|split; [exact Hv | reflexivity]].
    assert (Hin : k0 ∈ contained_indices kreis (geometry row))
      by (rewrite E; apply elem_of_cons; left; reflexivity).
    apply PausenzuordnungFacts.elem_of_contained_indices in Hin
      as (g & Hg & Hc).
    exists g. split; [exact Hg|]. left. exact Hc.
  - intros H. apply bind_Ok in H as ([m [j|]] & Hsel & H); [|discriminate].
    apply list_iadd64_Ok in H as (v & Hv & ->).
    exists j, v. split; [|split; [exact Hv | reflexivity]].
    apply select_kreis64_selected in Hsel as [Hnone | (j' & [= <-] & Hj)];
      [discriminate|].
    rewrite <- E in Hj.
    apply PausenzuordnungFacts.elem_of_contained_indices in Hj
      as (g & Hg & Hc).
    exists g. split; [exact Hg|]. left. exact Hc.
Qed.

Lemma counts_of_cons (a : nat) (assignment : list nat) (c : Binary64.float)
    (counts : list Binary64.float) (j : nat) :
  counts_of (a :: assignment) (c :: counts) j =
  if decide (a = j) then c :: counts_of assignment counts j
  else counts_of assignment counts j.
Proof.
  unfold counts_of. cbn [zip zip_with]. rewrite filter_cons. cbn [fst].
  destruct (decide (a = j)); reflexivity.
Qed.

(** *** A pass *)

(** Every break of a pass that returns is given to one eligible
    position, and every running total has grown by the counts of the
    breaks given to its position, added in their order. *)
Lemma assign_loop64_counted (kreis : list Geom)
    (breaks : list (BreakRow (Point := Point))) :
  forall results results',
    for_each (assign_break kreis) results breaks = Ok results' ->
    exists assignment : list nat,
      Forall2 (eligible kreis) assignment breaks /\
      Forall (fun a => a < length results) assignment /\
      length results' = length results /\
      forall j v, results !! j = Some v ->
        results' !! j =
        Some (fold_left Binary64.add
                (counts_of assignment (Break_Number <$> breaks) j) v).
Proof.
  induction breaks as [|row breaks IH]; intros results results' H;
    cbn [for_each] in H.
  - injection H as <-. exists []. split; [constructor|].
    split; [constructor|]. split; [reflexivity|]. intros j v Hv. exact Hv.
  - apply bind_Ok in H as (r1 & Hstep & H).
    apply assign_break64_Ok in Hstep as (j0 & v0 & Hel & Hv0 & ->).
    apply IH in H as (assignment & Hall & Hrange & Hlen & Hres).
    rewrite length_insert in Hlen, Hrange.
    exists (j0 :: assignment). split; [constructor; assumption|].
    split; [constructor; [eapply lookup_lt_Some, Hv0 | exact Hrange]|].
    split; [exact Hlen|]. intros j v Hv.
    rewrite fmap_cons, counts_of_cons. destruct (decide (j0 = j)) as [->|Hne].
    + rewrite Hv0 in Hv. injection Hv as <-. cbn [fold_left].
      apply Hres. apply list_lookup_insert_eq.
      eapply lookup_lt_Some, Hv0.
    + apply Hres. rewrite list_lookup_insert_ne by exact Hne. exact Hv.
Qed.

(** *** Every count is in the sum of one facility *)

Lemma sumQ_fmap_ext {A : Type} (f g : A -> Q) (l : list A) :
  (forall x, x ∈ l -> (f x == g x)%Q) ->
  (sumQ (f <$> l) == sumQ (g <$> l))%Q.
Proof.
  induction l as [|x l IH]; intros H; [reflexivity|].
  rewrite !fmap_cons, !SegmentsFacts.sumQ_cons.
  rewrite (H x) by (apply elem_of_cons; left; reflexivity).
  rewrite IH; [reflexivity|].
  intros y Hy. apply H, elem_of_cons. right. exact Hy.
Qed.

Lemma sumQ_fmap_plus {A : Type} (f g : A -> Q) (l : list A) :
  (sumQ ((fun x => f x + g x) <$> l) == sumQ (f <$> l) + sumQ (g <$> l))%Q.
Proof.
  induction l as [|x l IH]; [reflexivity|].
  rewrite !fmap_cons, !SegmentsFacts.sumQ_cons, IH. ring.
Qed.

Lemma sumQ_zeros {A : Type} (l : list A) :
  (sumQ ((fun _ => 0%Q) <$> l) == 0)%Q.
Proof.
  induction l as [|y l IH]; [reflexivity|].
  rewrite fmap_cons, SegmentsFacts.sumQ_cons, IH. ring.
Qed.

(** A count that is given to one position below [n] is met once when the
    positions below [n] are gone through. *)
Lemma sumQ_one_position (a : nat) (c : Q) (n : nat) : forall i : nat,
  i <= a < i + n ->
  (sumQ ((fun j => if decide (a = j) then c else 0) <$> seq i n) == c)%Q.
Proof.
  induction n as [|n IH]; intros i Ha; [lia|].
  cbn [seq]. rewrite fmap_cons, SegmentsFacts.sumQ_cons.
  destruct (decide (a = i)) as [->|Hne].
  - rewrite (sumQ_fmap_ext _ (fun _ => 0%Q)).
    + rewrite sumQ_zeros. ring.
    + intros j Hj. apply elem_of_seq in Hj.
      destruct (decide (i = j)); [lia | reflexivity].
  - rewrite IH by lia. ring.
Qed.

(** The counts given to the positions below [n], position by position,
    are all the counts, each once. *)
Lemma counts_of_partition (n : nat) : forall (assignment : list nat)
    (counts : list Binary64.float),
  Forall (fun a => a < n) assignment ->
  length assignment = length counts ->
  (sumQ ((fun j => sumQ (Binary64.value <$> counts_of assignment counts j))
           <$> seq 0 n)
   == sumQ (Binary64.value <$> counts))%Q.
Proof.
  induction assignment as [|a assignment IH]; intros [|c counts] Hrange Hlen;
    try discriminate.
  - rewrite (sumQ_fmap_ext _ (fun _ => 0%Q)); [apply sumQ_zeros|].
    intros j _. reflexivity.
  - apply Forall_cons in Hrange as [Ha Hrange].
    rewrite (sumQ_fmap_ext _
               (fun j => (if decide (a = j) then Binary64.value c else 0)
                         + sumQ (Binary64.value <$>
                                   counts_of assignment counts j))%Q).
    + rewrite sumQ_fmap_plus, sumQ_one_position by lia.
      rewrite IH by (try assumption; cbn in Hlen; lia).
      rewrite fmap_cons, SegmentsFacts.sumQ_cons. reflexivity.
    + intros j _. rewrite counts_of_cons.
      destruct (decide (a = j)).
      * rewrite fmap_cons, SegmentsFacts.sumQ_cons. reflexivity.
      * ring.
Qed.

(** A list is the list of its entries. *)
Lemma list_of_entries {A : Type} (l : list A) (n : nat) (f : nat -> A) :
  length l = n -> (forall j, j < n -> l !! j = Some (f j)) ->
  l = f <$> seq 0 n.
Proof.
  intros Hlen H. apply list_eq. intros j. rewrite list_lookup_fmap.
  destruct (decide (j < n)) as [Hj|Hj].
  - rewrite (H j Hj), lookup_seq_lt by exact Hj. reflexivity.
  - rewrite lookup_ge_None_2 by lia.
    rewrite lookup_seq_ge by lia. reflexivity.
Qed.

(** C1 (amended). In a pass of [assign_breaks_to_points] that returns,
    every break is given to exactly one facility, one whose buffer
    contains it or, when none does, a nearest one; the count returned for
    a facility is the binary64 sum, in the order of the breaks, of the
    counts of the breaks given to it.  No break is dropped and none is
    counted toward two facilities: when none of these sums is rounded,
    the returned counts add up to the sum of the counts of all breaks. *)
Theorem every_break_counted_once {Standort : Type}
    (breaks : list (BreakRow (Point := Point)))
    (gdf_ausschreibung : list Standort) (kreis : list Geom)
    (results : list Binary64.float) :
  assign_breaks_to_points contains distance breaks gdf_ausschreibung kreis
    = Ok results ->
  exists assignment : list nat,
    Forall2 (eligible kreis) assignment breaks /\
    length results = length gdf_ausschreibung /\
    (forall j, j < length gdf_ausschreibung ->
       results !! j =
       Some (Binary64.sum
               (counts_of assignment (Break_Number <$> breaks) j))) /\
    ((forall j, j < length gdf_ausschreibung ->
        (Binary64.value
           (Binary64.sum (counts_of assignment (Break_Number <$> breaks) j))
         == sumQ (Binary64.value <$>
                    counts_of assignment (Break_Number <$> breaks) j))%Q) ->
     (sumQ (Binary64.value <$> results)
      == sumQ (Binary64.value <$> (Break_Number <$> breaks)))%Q).
Proof.
  unfold assign_breaks_to_points. intros H.
  apply assign_loop64_counted in H
    as (assignment & Hall & Hrange & Hlen & Hres).
  rewrite length_replicate in Hlen, Hrange.
  assert (Hentries : forall j, j < length gdf_ausschreibung ->
            results !! j =
            Some (Binary64.sum
                    (counts_of assignment (Break_Number <$> breaks) j)))
    by (intros j Hj; apply Hres, lookup_replicate_2, Hj).
  exists assignment. split; [exact Hall|]. split; [exact Hlen|].
  split; [exact Hentries|]. intros Hexact.
  rewrite (list_of_entries results _ _ Hlen Hentries).
  rewrite <- list_fmap_compose.
  rewrite (sumQ_fmap_ext _
             (fun j => sumQ (Binary64.value <$>
                               counts_of assignment
                                 (Break_Number <$> breaks) j))).
  - apply counts_of_partition; [exact Hrange|].
    rewrite length_fmap. eapply Forall2_length, Hall.
  - intros j Hj. apply elem_of_seq in Hj. apply Hexact. lia.
Qed.

(** C6 (amended). A break that lies in no buffer adds its count to the
    facility at the smallest distance among the facilities whose
    distance is a number, the earliest such position on a tie; the
    position is the same whatever the running totals are.  When no
    facility has a distance that is a number, as with buffers of radius
    0, which are empty, the step raises [ValueError]. *)
Theorem nearest_fallback_among_numbers (kreis : list Geom) (p : Point) :
  contained_indices kreis p = [] ->
  ((exists k h d, kreis !! k = Some h /\ distance h p = Some d) ->
   exists j g d,
     kreis !! j = Some g /\ distance g p = Some d /\
     (forall k h d', kreis !! k = Some h -> distance h p = Some d' ->
        (d <= d')%Q) /\
     (forall k h d', k < j -> kreis !! k = Some h ->
        distance h p = Some d' -> (d < d')%Q) /\
     forall (results : list Binary64.float) (count : Binary64.float),
       length results = length kreis ->
       exists v, results !! j = Some v /\
         assign_break kreis results (mkBreakRow p count)
         = Ok (<[j := Binary64.add v count]> results)) /\
  ((forall k h, kreis !! k = Some h -> distance h p = None) ->
   forall (results : list Binary64.float) (count : Binary64.float),
     assign_break kreis results (mkBreakRow p count) = Raise ValueError).
Proof.
  intros Hempty. split.
  - intros (k0 & h0 & d0 & Hk0 & Hd0).
    destruct (idxmin ((fun k => distance k p) <$> kreis)) as [j|e] eqn:Hidx.
    + pose proof Hidx as Hspec.
      apply idxmin64_Ok in Hspec as (d & Hd & Hle & Hfirst).
      rewrite list_lookup_fmap in Hd.
      destruct (kreis !! j) as [g|] eqn:Hg; [|discriminate].
      injection Hd as Hd. exists j, g, d.
      split; [exact Hg|]. split; [exact Hd|]. split.
      { intros k h d' Hk Hd'. apply (Hle k).
        rewrite list_lookup_fmap, Hk. cbn. rewrite Hd'. reflexivity. }
      split.
      { intros k h d' Hlt Hk Hd'. apply (Hfirst k); [exact Hlt|].
        rewrite list_lookup_fmap, Hk. cbn. rewrite Hd'. reflexivity. }
      intros results count Hlen.
      assert (Hin : j < length results)
        by (rewrite Hlen; eapply lookup_lt_Some, Hg).
      apply lookup_lt_is_Some in Hin as [v Hv]. exists v.
      split; [exact Hv|].
      unfold Pausenzuordnung64.assign_break. cbv zeta.
      cbn [geometry Break_Number]. rewrite Hempty, Hidx.
      cbn [mbind Result_bind]. apply list_iadd64_Ok. eauto.
    + apply idxmin64_Raise in Hidx as [_ Hall].
      rewrite Forall_fmap in Hall.
      eapply Forall_lookup_1 in Hall; [|exact Hk0]. cbn in Hall. congruence.
  - intros Hnan results count.
    unfold Pausenzuordnung64.assign_break. cbv zeta.
    cbn [geometry Break_Number]. rewrite Hempty.
    assert (Hidx : idxmin ((fun k => distance k p) <$> kreis)
                   = Raise ValueError).
    { apply idxmin64_Raise. split; [reflexivity|]. rewrite Forall_fmap.
      apply Forall_lookup. intros k h Hk. cbn. eapply Hnan, Hk. }
    rewrite Hidx. reflexivity.
Qed.

End Assignment64Facts.

(** *** The theorems on sample passes *)

(** C1, as stated, fails: the counts 0.1 at the first facility and 0.1
    and 0.4 at the second are returned as 0.1 and 0.5, whose sum is not
    the sum of the three counts, neither when the numbers are added in
    binary64 (0.6 against 0.6000000000000001) nor as the numbers they
    stand for. *)
Lemma conservation_counterexample :
  exists results,
    assign_breaks_to_points Disc.contains Disc.distance
      Sample.fractional_rows Sample.standorte Sample.discs = Ok results /\
    Binary64.eqb (Binary64.sum results)
      (Binary64.sum (Break_Number <$> Sample.fractional_rows)) = false /\
    ~ (sumQ (Binary64.value <$> results)
       == sumQ (Binary64.value <$> (Break_Number <$> Sample.fractional_rows)))%Q.
Proof.
  exists [Binary64.decimal 1 1; Binary64.decimal 5 1].
  split; [vm_compute; reflexivity|].
  split; [vm_compute; reflexivity|].
  vm_compute. discriminate.
Qed.

Lemma every_break_counted_once_witness :
  exists assignment : list nat,
    Forall2 (eligible Disc.contains Disc.distance Sample.discs) assignment
      Sample.fractional_rows /\
    length [Binary64.decimal 1 1; Binary64.decimal 5 1]
    = length Sample.standorte /\
    (forall j, j < length Sample.standorte ->
       [Binary64.decimal 1 1; Binary64.decimal 5 1] !! j =
       Some (Binary64.sum
               (counts_of assignment
                  (Break_Number <$> Sample.fractional_rows) j))) /\
    ((forall j, j < length Sample.standorte ->
        (Binary64.value
           (Binary64.sum
              (counts_of assignment
                 (Break_Number <$> Sample.fractional_rows) j))
         == sumQ (Binary64.value <$>
                    counts_of assignment
                      (Break_Number <$> Sample.fractional_rows) j))%Q) ->
     (sumQ (Binary64.value <$>
              [Binary64.decimal 1 1; Binary64.decimal 5 1])
      == sumQ (Binary64.value <$>
                 (Break_Number <$> Sample.fractional_rows)))%Q).
Proof.
  apply (every_break_counted_once Disc.contains Disc.distance
           Sample.fractional_rows Sample.standorte Sample.discs).
  vm_compute. reflexivity.
Defined.

(** With the counts 3, 4 and 1 no addition is rounded, and the returned
    counts 3 and 5 add up to the sum of the counts. *)
Example whole_counts_add_up :
  assign_breaks_to_points Disc.contains Disc.distance Sample.whole_rows
    Sample.standorte Sample.discs
  = Ok [Binary64.of_Z 3; Binary64.of_Z 5] /\
  (sumQ (Binary64.value <$> [Binary64.of_Z 3; Binary64.of_Z 5])
   == sumQ (Binary64.value <$> (Break_Number <$> Sample.whole_rows)))%Q.
Proof. split; vm_compute; reflexivity. Qed.

(** C6, as stated, fails: with buffers of radius 0 a break lies in no
    buffer, and the pass is ended by [ValueError] at this break; its
    count goes to no facility. *)
Lemma zero_radius_counterexample :
  Pausenzuordnung.contained_indices Disc.contains Sample.discs_radius_0 5%Q
  = [] /\
  assign_breaks_to_points Disc.contains Disc.distance
    [mkBreakRow 5%Q (Binary64.of_Z 3)] Sample.standorte Sample.discs_radius_0
  = Raise ValueError.
Proof. split; vm_compute; reflexivity. Qed.

Lemma nearest_fallback_among_numbers_witness :
  Pausenzuordnung.contained_indices Disc.contains
    Sample.discs_radius_0_and_1 5%Q = [] /\
  exists j g d,
    Sample.discs_radius_0_and_1 !! j = Some g /\
    Disc.distance g 5%Q = Some d /\
    (forall k h d', Sample.discs_radius_0_and_1 !! k = Some h ->
       Disc.distance h 5%Q = Some d' -> (d <= d')%Q) /\
    (forall k h d', k < j -> Sample.discs_radius_0_and_1 !! k = Some h ->
       Disc.distance h 5%Q = Some d' -> (d < d')%Q) /\
    forall (results : list Binary64.float) (count : Binary64.float),
      length results = length Sample.discs_radius_0_and_1 ->
      exists v, results !! j = Some v /\
        assign_break Disc.contains Disc.distance Sample.discs_radius_0_and_1
          results (mkBreakRow 5%Q count)
        = Ok (<[j := Binary64.add v count]> results).
Proof.
  split; [vm_compute; reflexivity|].
  apply (proj1 (nearest_fallback_among_numbers Disc.contains Disc.distance
                  Sample.discs_radius_0_and_1 5%Q eq_refl)).
  exists 1. do 2 eexists. split; reflexivity.
Defined.

End Pausenzuordnung64Facts.
